(** * Noteblock Music Maker: the note store, the transport clock and the exporter

    A shallow embedding of the sequencer scripts of the repository:
    - [Part000]  : src/unnamed/part_000 (CONFIG.totalTicks = 400, [generateFile]);
    - [Script1]  : src/script.js, first document (lines 1-250; TOTAL_TICKS = 200,
                   instrument names, repeat checkbox, [generateBedrockScript]);
    - [Script2]  : src/script.js, second document (lines 251-488; [play] without
                   the re-entry guard, [generateApiFile]);
    - [Script3]  : src/script.js, third document (lines 489-753): its transport
                   (guarded [play], [pause] that forgets the handle, pause around
                   a seek); its [toggleNote] and [generateApiFile] are those of
                   the second document word for word.

    Numbers.  Ticks, pitches, instrument indices and identifiers are JavaScript
    numbers that only ever hold integers here: they are [Z].  The speed is a
    double, and the period [play()] computes from it is computed in doubles:
    the IEEE 754 binary64 numbers of the Standard Library ([SpecFloat]), with
    their rounding, their infinities, [NaN] and the two zeros.  The slider
    position and the value of [Math.random()] are rationals [Q] with
    [Math.floor] as [Qfloor], and [Math.pow] is the real power function
    [Rpower]: for these three the rounding of doubles is not modelled, and
    the statements below use of a seek only its range and its monotonicity.

    The page (DOM nodes, CSS, audio elements, the download anchor) is not
    modelled; what the scripts hand to it is recorded in the [log] of the
    state as a list of events. *)

From Stdlib Require Import Ascii String DecimalString.
From Stdlib Require Import Reals Rpower Lra.
From Stdlib Require Import ZArith QArith Qround Bool List Lia.
From Stdlib Require Import SpecFloat.
From Stdlib Require Import Permutation Sorted.
Import ListNotations.

#[local] Open Scope Z_scope.

(** ** The JavaScript runtime the scripts rely on *)

Module Js.

(** *** Numbers of the speed field *)

(** A JavaScript number is an IEEE 754 double: a value of the Standard
    Library's specification of floating-point numbers with a mantissa of 53
    bits and the infinities at exponent 1024.  Arithmetic on it rounds to the
    nearest double, ties to even, overflows to an infinity and keeps the sign
    of a zero. *)
Definition num : Type := spec_float.

Definition prec : Z := 53.
Definition emax : Z := 1024.

Definition NaN : num := S754_nan.
Definition Infinity : num := S754_infinity false.

(** The double an integer literal denotes. *)
Definition of_Z (z : Z) : num := binary_normalize prec emax z 0 false.

(** The double [2^e]. *)
Definition pow2 (e : Z) : num := binary_normalize prec emax 1 e false.

(** The values a variable of the language can hold: the special ones and the
    finite ones in canonical form. *)
Definition is_double (x : num) : bool := valid_binary prec emax x.

(** [x || d] on numbers: [NaN], [0] and [-0] are falsy. *)
Definition or_default (x d : num) : num :=
  match x with
  | S754_nan | S754_zero _ => d
  | S754_infinity _ | S754_finite _ _ _ => x
  end.

(** [a / b]. *)
Definition div (a b : num) : num := SFdiv prec emax a b.

Arguments of_Z : simpl never.
Arguments pow2 : simpl never.
Arguments div : simpl never.

(** A number is usable as a period when it is finite and positive. *)
Definition positive_finite (x : num) : Prop :=
  match x with
  | S754_finite false _ _ => True
  | _ => False
  end.

(** *** Array methods *)

Section Arrays.
Context {A : Type}.

Fixpoint find_index (f : A -> bool) (l : list A) : option nat :=
  match l with
  | [] => None
  | x :: l' => if f x then Some O else option_map S (find_index f l')
  end.

(** [l.findIndex(f)]: the first index whose element satisfies [f], or -1. *)
Definition findIndex (f : A -> bool) (l : list A) : Z :=
  match find_index f l with
  | Some i => Z.of_nat i
  | None => -1
  end.

(** [l.splice(start, 1)] for [start >= 0]: the element at [start] is
    removed; past the end nothing is removed. *)
Definition splice1 (start : Z) (l : list A) : list A :=
  firstn (Z.to_nat start) l ++ skipn (S (Z.to_nat start)) l.

(** [l.push(x)]. *)
Definition push (x : A) (l : list A) : list A := l ++ [x].

(** [l.sort((a, b) => key(a) - key(b))].  The language requires the sort
    to be stable, which fixes its result for a comparator of this shape:
    the elements by ascending key, equal keys in their former order.
    Insertion from the right computes exactly that list. *)
Fixpoint insert (key : A -> Z) (x : A) (l : list A) : list A :=
  match l with
  | [] => [x]
  | y :: l' => if key x - key y <=? 0 then x :: l else y :: insert key x l'
  end.

Definition sort (key : A -> Z) (l : list A) : list A :=
  fold_right (insert key) [] l.

(** The order a sorted array is in. *)
Definition by_key (key : A -> Z) (a b : A) : Prop := key a <= key b.

End Arrays.

(** [l.join(',')] on strings. *)
Fixpoint join (sep : string) (l : list string) : string :=
  match l with
  | [] => EmptyString
  | [x] => x
  | x :: l' => (x ++ sep ++ join sep l')%string
  end.

(** An integer inside a template literal. *)
Definition show (z : Z) : string := NilZero.string_of_int (Z.to_int z).

(** [l[i]]: [undefined] (here [None]) outside the array. *)
Definition index {A : Type} (l : list A) (i : Z) : option A :=
  if i <? 0 then None else nth_error l (Z.to_nat i).

(** [Math.pow(x, y)] for a positive base. *)
Definition pow (x y : R) : R := Rpower x y.

(** [x.toFixed(2)]: the integer [n] with [n / 100] nearest to [x], the larger
    one on a tie; the text printed is [n] with a point before its last two
    digits, so [n] stands for the literal here. *)
Definition toFixed2 (x : R) : Z := Zfloor (x * 100 + / 2).

(** *** Interval timers *)

(** Handles are the positive integers the host gives out; the table lists
    the live intervals with their period, oldest first. *)
Definition handle := positive.
Definition timer_table := list (handle * num).

Definition clear (h : handle) (t : timer_table) : timer_table :=
  filter (fun e => negb (Pos.eqb (fst e) h)) t.

(** *** Loops and padding *)

(** The values [for (let i = 0; i < n; i++)] runs through. *)
Definition upto (n : Z) : list Z := map Z.of_nat (seq 0 (Z.to_nat n)).

(** The values [for (let i = hi; i >= 0; i--)] runs through. *)
Definition downto (hi : Z) : list Z :=
  map (fun k => hi - Z.of_nat k) (seq 0 (Z.to_nat (hi + 1))).

Fixpoint repeat_char (c : ascii) (n : nat) : string :=
  match n with
  | O => EmptyString
  | S n' => String c (repeat_char c n')
  end.

(** [s.padStart(n, c)] for a one-character pad. *)
Definition padStart (n : nat) (c : ascii) (s : string) : string :=
  (repeat_char c (n - String.length s) ++ s)%string.

End Js.

Import Js.

(** ** The data the four scripts share *)

Module Song.

(** A placed note: [{ tick, pitch, inst }].  The instrument is an index
    into [INSTRUMENTS] in part_000 and in the later documents of script.js,
    and an instrument name in the first document of script.js. *)
Record Note (I : Type) : Type := mkNote {
  tick : Z;
  pitch : Z;
  inst : I
}.
Arguments mkNote {I}.
Arguments tick {I}.
Arguments pitch {I}.
Arguments inst {I}.

(** What a script hands to the page while it runs: a preview sound
    ([playPreview (inst, pitch)]) or a refresh of playhead, progress bar and
    clock for the tick that is current at the time of the call. *)
Inductive Event (I : Type) : Type :=
| Preview (i : I) (p : Z)
| UIUpdate (t : Z).
Arguments Preview {I}.
Arguments UIUpdate {I}.

(** The module-level variables of a script together with the part of the
    page they read and write.  [speed] is a variable of the first document of
    script.js only, [repeatCheckbox] a control of its page only; [speedInput]
    is [parseFloat] of the text in the speed field. *)
Record State (I : Type) : Type := mkState {
  songData : list (Note I);
  isPlaying : bool;
  currentTick : Z;
  playbackInterval : option handle;
  selectedInst : I;
  speed : num;
  speedInput : num;
  repeatCheckbox : bool;
  timers : timer_table;
  nextTimer : handle;
  log : list (Event I)
}.
Arguments mkState {I}.
Arguments songData {I}.
Arguments isPlaying {I}.
Arguments currentTick {I}.
Arguments playbackInterval {I}.
Arguments selectedInst {I}.
Arguments speed {I}.
Arguments speedInput {I}.
Arguments repeatCheckbox {I}.
Arguments timers {I}.
Arguments nextTimer {I}.
Arguments log {I}.

Section Updates.
Context {I : Type}.
Implicit Type s : State I.

Definition set_songData v s :=
  mkState v (isPlaying s) (currentTick s) (playbackInterval s)
    (selectedInst s) (speed s) (speedInput s) (repeatCheckbox s)
    (timers s) (nextTimer s) (log s).
Definition set_isPlaying v s :=
  mkState (songData s) v (currentTick s) (playbackInterval s)
    (selectedInst s) (speed s) (speedInput s) (repeatCheckbox s)
    (timers s) (nextTimer s) (log s).
Definition set_currentTick v s :=
  mkState (songData s) (isPlaying s) v (playbackInterval s)
    (selectedInst s) (speed s) (speedInput s) (repeatCheckbox s)
    (timers s) (nextTimer s) (log s).
Definition set_playbackInterval v s :=
  mkState (songData s) (isPlaying s) (currentTick s) v
    (selectedInst s) (speed s) (speedInput s) (repeatCheckbox s)
    (timers s) (nextTimer s) (log s).
Definition set_selectedInst v s :=
  mkState (songData s) (isPlaying s) (currentTick s) (playbackInterval s)
    v (speed s) (speedInput s) (repeatCheckbox s)
    (timers s) (nextTimer s) (log s).
Definition set_speed v s :=
  mkState (songData s) (isPlaying s) (currentTick s) (playbackInterval s)
    (selectedInst s) v (speedInput s) (repeatCheckbox s)
    (timers s) (nextTimer s) (log s).
Definition set_speedInput v s :=
  mkState (songData s) (isPlaying s) (currentTick s) (playbackInterval s)
    (selectedInst s) (speed s) v (repeatCheckbox s)
    (timers s) (nextTimer s) (log s).
Definition set_repeatCheckbox v s :=
  mkState (songData s) (isPlaying s) (currentTick s) (playbackInterval s)
    (selectedInst s) (speed s) (speedInput s) v
    (timers s) (nextTimer s) (log s).
Definition set_timers v s :=
  mkState (songData s) (isPlaying s) (currentTick s) (playbackInterval s)
    (selectedInst s) (speed s) (speedInput s) (repeatCheckbox s)
    v (nextTimer s) (log s).
Definition set_nextTimer v s :=
  mkState (songData s) (isPlaying s) (currentTick s) (playbackInterval s)
    (selectedInst s) (speed s) (speedInput s) (repeatCheckbox s)
    (timers s) v (log s).
Definition emit (e : Event I) s :=
  mkState (songData s) (isPlaying s) (currentTick s) (playbackInterval s)
    (selectedInst s) (speed s) (speedInput s) (repeatCheckbox s)
    (timers s) (nextTimer s) (log s ++ [e]).

(** [setInterval(callback, ms)]: a fresh handle is entered in the table
    and returned.  Every interval of a script runs the same callback, so
    the table does not store it. *)
Definition setInterval (ms : num) s : handle * State I :=
  let h := nextTimer s in
  (h, set_nextTimer (Pos.succ h) (set_timers (timers s ++ [(h, ms)]) s)).

(** [clearInterval(h)]. *)
Definition clearInterval (h : handle) s : State I :=
  set_timers (clear h (timers s)) s.

(** The page as loaded: no notes, stopped at tick 0, nothing scheduled,
    nothing emitted yet.  The instrument selection and the text of the
    speed field come from the markup, which the scripts do not set. *)
Definition initial (sel : I) (field : num) : State I :=
  mkState [] false 0 None sel (of_Z 1) field false [] 1%positive [].

(** [n => n.tick === tick && n.pitch === pitch] *)
Definition at_cell (t p : Z) (n : Note I) : bool :=
  (tick n =? t) && (pitch n =? p).

(** [n => n.tick === currentTick] *)
Definition at_tick (t : Z) (n : Note I) : bool := tick n =? t.

(** The cell a note occupies. *)
Definition cell (n : Note I) : Z * Z := (tick n, pitch n).

(** Is there a note at the cell? *)
Definition occupied (t p : Z) (l : list (Note I)) : bool :=
  existsb (at_cell t p) l.

(** The uniqueness invariant of the data model: one note per cell. *)
Definition unique_cells (l : list (Note I)) : Prop := NoDup (map cell l).

(** What a toggle does to the array, whichever script runs it: each
    [toggleNote] below is this function on its [songData]. *)
Definition toggled (sel : I) (t p : Z) (l : list (Note I)) : list (Note I) :=
  if findIndex (at_cell t p) l >? -1 then splice1 (findIndex (at_cell t p) l) l
  else push (mkNote t p sel) l.

(** The screen refreshes a log holds: the tick of each, in order. *)
Definition ui_ticks (l : list (Event I)) : list Z :=
  flat_map (fun e => match e with UIUpdate t => [t] | Preview _ _ => [] end) l.

(** The preview sounds a log holds: instrument and pitch of each, in order. *)
Definition previews (l : list (Event I)) : list (I * Z) :=
  flat_map (fun e => match e with Preview i p => [(i, p)] | UIUpdate _ => [] end) l.

(** What a note sounds like in a preview. *)
Definition voice (n : Note I) : I * Z := (inst n, pitch n).

End Updates.

End Song.

Import Song.

(** ** The exported module (part_000 and the later documents of script.js)

    [generateFile] and [generateApiFile] write the text of a JavaScript module
    [export const Music<id> = { id, speed, instruments, data, getNotesAt }].
    [Music] is the object that text denotes, [getNotesAt] its method. *)

Module Api.

Record Music : Type := mkMusic {
  id : Z;
  speed : num;
  instruments : list string;
  data : list (Z * Z * Z)
}.

(** One element of the answer of [getNotesAt]: [{ sound, pitch }]. *)
Record Entry : Type := mkEntry {
  sound : option string;
  pitch : R
}.

(** The [instruments] line of the template. *)
Definition sound_ids : list string :=
  ["note.harp"; "note.bass"; "note.guitar"; "note.banjo"; "note.pling"]%string.

(** [this.data.filter(n => n[0] === tick).map(n => ({ sound:
    this.instruments[n[1]], pitch: Math.pow(2, (n[2] - 12) / 12) }))] *)
Definition getNotesAt (m : Music) (t : Z) : list Entry :=
  map (fun n : Z * Z * Z =>
         let '(_, n1, n2) := n in
         mkEntry (index (instruments m) n1) (pow 2 ((IZR n2 - 12) / 12)))
      (filter (fun n : Z * Z * Z => let '(n0, _, _) := n in n0 =? t) (data m)).

(** [n => `[${n.tick},${n.inst},${n.pitch}]`] *)
Definition tuple_text (n : Note Z) : string :=
  ("[" ++ show (tick n) ++ "," ++ show (inst n) ++ "," ++ show (Song.pitch n) ++ "]")%string.

(** The array literal [tuple_text] writes. *)
Definition tuple (n : Note Z) : Z * Z * Z := (tick n, inst n, Song.pitch n).

(** The order of the [data] array: by its first component, the tick. *)
Definition by_tick (a b : Z * Z * Z) : Prop := fst (fst a) <= fst (fst b).

(** What the download collaborator receives: the suggested file name and
    the module text, of which the model keeps the [data] line and the object
    the whole text denotes. *)
Record File : Type := mkFile {
  filename : string;
  dataStr : string;
  module : Music
}.

End Api.

(** The pitch-to-frequency mapper as the specification words it:
    [pitchRatio(pitchIndex) = 2^((pitchIndex - centerIndex) / 12)] with
    [centerIndex = 12]. *)
Definition centerIndex : Z := 12.

Definition pitchRatio (pitchIndex : Z) : R :=
  Rpower 2 (IZR (pitchIndex - centerIndex) / 12).

(** ** src/unnamed/part_000 *)

Module Part000.

Record Config : Type := mkConfig {
  ticksPerSecond : Z;
  totalTicks : Z;
  pitchRange : Z
}.

Definition CONFIG : Config := mkConfig 20 400 25.

Definition INSTRUMENTS : list string :=
  ["harp"; "bass"; "guitar"; "banjo"; "pling"]%string.

Definition State : Type := Song.State Z.

(** [let selectedInst = 0] and the other initial values. *)
Definition init (field : num) : State := initial 0 field.

(** [playPreview(inst, pitch)]: an audio element is created and started; a
    failure to play is swallowed by the [catch]. *)
Definition playPreview (i p : Z) (s : State) : State := emit (Preview i p) s.

(** [toggleNote(tick, pitch, cell)]; the drawing of the cell is left out. *)
Definition toggleNote (t p : Z) (s : State) : State :=
  let index := findIndex (at_cell t p) (songData s) in
  if index >? -1 then
    set_songData (splice1 index (songData s)) s
  else
    let s := set_songData (push (mkNote t p (selectedInst s)) (songData s)) s in
    playPreview (selectedInst s) p s.

(** [updateUI()]: playhead, scroll position, progress bar and clock are set
    from [currentTick]. *)
Definition updateUI (s : State) : State := emit (UIUpdate (currentTick s)) s.

Definition pause (s : State) : State :=
  let s := set_isPlaying false s in
  match playbackInterval s with
  | Some h => clearInterval h s
  | None => s
  end.

Definition stop (s : State) : State :=
  let s := pause s in
  let s := set_currentTick 0 s in
  updateUI s.

(** The function [play] hands to [setInterval]. *)
Definition interval_callback (s : State) : State :=
  if currentTick s >=? totalTicks CONFIG then stop s
  else
    let notes := filter (at_tick (currentTick s)) (songData s) in
    let s := fold_left (fun s n => playPreview (inst n) (Song.pitch n) s) notes s in
    let s := updateUI s in
    set_currentTick (currentTick s + 1) s.

Definition play (s : State) : State :=
  if isPlaying s then s
  else
    let s := set_isPlaying true s in
    let speed := or_default (speedInput s) (of_Z 1) in
    let ms := div (div (of_Z 1000) (of_Z (ticksPerSecond CONFIG))) speed in
    let '(h, s) := setInterval ms s in
    set_playbackInterval (Some h) s.

(** [instrumentSelect.onchange], with [v] the parsed value of the option. *)
Definition instrumentSelect_onchange (v : Z) (s : State) : State :=
  set_selectedInst v s.

(** [progress.oninput], with [value] the position of the slider. *)
Definition progress_oninput (value : Q) (s : State) : State :=
  let wasPlaying := isPlaying s in
  let s := if wasPlaying then pause s else s in
  let s := set_currentTick
             (Qfloor ((value / 100) * inject_Z (totalTicks CONFIG))) s in
  let s := updateUI s in
  if wasPlaying then play s else s.

(** [generateFile()], with [random] the value [Math.random()] returns.  The
    result is the state left behind and the file offered for download; the
    [speed] line of the module repeats the text of the speed field, kept here
    as the number it reads as. *)
Definition generateFile (random : Q) (s : State) : State * Api.File :=
  let id := Qfloor (random * 900) + 100 in
  let speed := speedInput s in
  let s := set_songData (sort tick (songData s)) s in
  let dataStr := join "," (map Api.tuple_text (songData s)) in
  let content :=
    Api.mkMusic id speed Api.sound_ids (map Api.tuple (songData s)) in
  (s, Api.mkFile ("music" ++ show id ++ ".js") dataStr content).

(** One firing of the timer: the callback runs if an interval is live. *)
Definition advance (s : State) : State :=
  match timers s with
  | [] => s
  | _ :: _ => interval_callback s
  end.

(** What can happen to the page, one event at a time.  A cell of the grid
    exists for every tick below [totalTicks] and every pitch below
    [pitchRange]; the slider runs from 0 to 100; [Math.random()] lies in
    [[0, 1)]. *)
Inductive step : State -> State -> Prop :=
| step_toggle s t p :
    0 <= t < totalTicks CONFIG -> 0 <= p < pitchRange CONFIG ->
    step s (toggleNote t p s)
| step_select s v : step s (instrumentSelect_onchange v s)
| step_speed s x : step s (set_speedInput x s)
| step_play s : step s (play s)
| step_pause s : step s (pause s)
| step_stop s : step s (stop s)
| step_seek s v : (0 <= v <= 100)%Q -> step s (progress_oninput v s)
| step_interval s h ms : In (h, ms) (timers s) -> step s (interval_callback s)
| step_download s r : (0 <= r < 1)%Q -> step s (fst (generateFile r s)).

Inductive reachable : State -> Prop :=
| reach_init field : reachable (init field)
| reach_step s s' : reachable s -> step s s' -> reachable s'.

(** The store of the export example, clicked together in tick order and in
    the opposite order: the notes [{tick:0, pitch:12, inst:0}] and
    [{tick:5, pitch:0, inst:1}], the speed field reading 1.0. *)
Definition two_notes : State :=
  toggleNote 5 0 (instrumentSelect_onchange 1 (toggleNote 0 12 (init (of_Z 1)))).

Definition two_notes_reversed : State :=
  toggleNote 0 12
    (instrumentSelect_onchange 0
       (toggleNote 5 0 (instrumentSelect_onchange 1 (init (of_Z 1))))).

(** What the export example expects of the file. *)
Definition exports_the_example (f : Api.File) : Prop :=
  Api.data (Api.module f) = [(0, 0, 12); (5, 1, 0)] /\
  Api.dataStr f = "[0,0,12],[5,1,0]"%string /\
  Api.speed (Api.module f) = of_Z 1 /\
  Api.getNotesAt (Api.module f) 0 = [Api.mkEntry (Some "note.harp"%string) 1%R].

(** The song length as a number of firings. *)
Definition total : nat := Z.to_nat (totalTicks CONFIG).

(** The state after [play()] and [n] firings of the timer. *)
Definition run (s : State) (n : nat) : State := Nat.iter n advance (play s).

(** The transport invariant: the tick stays on the song, and an interval is
    live exactly while [isPlaying] holds, namely the one [playbackInterval]
    names. *)
Definition transport_ok (s : State) : Prop :=
  0 <= currentTick s <= totalTicks CONFIG /\
  if isPlaying s
  then exists h ms, playbackInterval s = Some h /\ timers s = [(h, ms)]
  else timers s = [].

(** [fmt(s)]: minutes, a colon, and the seconds padded to two digits. *)
Definition fmt (s : Z) : string :=
  (show (s / 60) ++ ":" ++ padStart 2 "0" (show (Z.rem s 60)))%string.

(** [updateTime()]: the texts written to the elapsed and the total clock. *)
Definition updateTime (s : State) : string * string :=
  let cur := currentTick s / 20 in
  let tot := totalTicks CONFIG / 20 in
  (fmt cur, fmt tot).

(** What [updateUI()] gives the playhead and the progress bar:
    [40 + currentTick * 35] pixels and [(currentTick / totalTicks) * 100]. *)
Definition playhead_left (s : State) : Z := 40 + currentTick s * 35.

Definition progress_value (s : State) : Q :=
  (inject_Z (currentTick s) / inject_Z (totalTicks CONFIG)) * 100.

(** The elements [renderGrid()] appends to the grid, in order: the playhead,
    then for every pitch from the highest down its key label and its cells.
    A cell is recorded with the arguments its click handler passes to
    [toggleNote], its beat mark, and its grid column and row. *)
Inductive Element : Type :=
| Playhead
| KeyLabel (text column row : Z)
| GridCell (t p : Z) (beat : bool) (column row : Z).

Definition renderGrid : list Element :=
  Playhead ::
  flat_map
    (fun p =>
       KeyLabel p 1 (pitchRange CONFIG - p) ::
       map (fun t => GridCell t p (Z.rem t 4 =? 0) (t + 2) (pitchRange CONFIG - p))
           (upto (totalTicks CONFIG)))
    (downto (pitchRange CONFIG - 1)).

(** Where an element sits on the grid; the playhead is positioned by its
    [left] offset instead. *)
Definition place (e : Element) : option (Z * Z) :=
  match e with
  | Playhead => None
  | KeyLabel _ c r => Some (c, r)
  | GridCell _ _ _ c r => Some (c, r)
  end.

(** A number below 100 written with two digits. *)
Definition two_digits (r : Z) : string :=
  String (ascii_of_nat (48 + Z.to_nat (r / 10)))
    (String (ascii_of_nat (48 + Z.to_nat (r mod 10))) EmptyString).

(** A note that lies on the grid. *)
Definition on_grid (n : Note Z) : Prop :=
  0 <= tick n < totalTicks CONFIG /\ 0 <= Song.pitch n < pitchRange CONFIG.

End Part000.

(** ** src/script.js, first document (lines 1-250) *)

Module Script1.

Definition TICKS_PER_SECOND : Z := 20.
Definition NOTES_COUNT : Z := 25.
Definition TOTAL_TICKS : Z := 200.

Definition State : Type := Song.State string.

(** [let speed = 1.0; let currentInstrument = 'harp'] and the other initial
    values; the instrument variable is the [selectedInst] field. *)
Definition init (field : num) : State := initial "harp"%string field.

(** [playPreviewSound(instrument, pitchIndex)] writes a line to the console. *)
Definition playPreviewSound (i : string) (p : Z) (s : State) : State :=
  emit (Preview i p) s.

Definition toggleNote (t p : Z) (s : State) : State :=
  let existingIndex := findIndex (at_cell t p) (songData s) in
  if existingIndex >? -1 then
    set_songData (splice1 existingIndex (songData s)) s
  else
    let s := set_songData (push (mkNote t p (selectedInst s)) (songData s)) s in
    playPreviewSound (selectedInst s) p s.

(** [progressBar.value = ...; updateTimeDisplay()]: progress bar and clock
    are set from [currentTick]. *)
Definition updateTimeDisplay (s : State) : State :=
  emit (UIUpdate (currentTick s)) s.

Definition pause (s : State) : State :=
  let s := set_isPlaying false s in
  match playbackInterval s with
  | Some h => clearInterval h s
  | None => s
  end.

Definition stop (s : State) : State :=
  let s := pause s in
  let s := set_currentTick 0 s in
  updateTimeDisplay s.

(** The part of the interval callback after the end-of-song test. *)
Definition play_notes_and_step (s : State) : State :=
  let notes := filter (at_tick (currentTick s)) (songData s) in
  let s := fold_left (fun s n => playPreviewSound (inst n) (Song.pitch n) s) notes s in
  let s := updateTimeDisplay s in
  set_currentTick (currentTick s + 1) s.

(** The function [play] hands to [setInterval]. *)
Definition interval_callback (s : State) : State :=
  if currentTick s >=? TOTAL_TICKS then
    if repeatCheckbox s then play_notes_and_step (set_currentTick 0 s)
    else stop s
  else play_notes_and_step s.

Definition play (s : State) : State :=
  if isPlaying s then s
  else
    let s := set_isPlaying true s in
    let tickRate :=
      div (div (of_Z 1000) (of_Z TICKS_PER_SECOND)) (Song.speed s) in
    let '(h, s) := setInterval tickRate s in
    set_playbackInterval (Some h) s.

(** The [change] listener of the speed field, with [x] what [parseFloat]
    makes of its text. *)
Definition speedInput_onchange (x : num) (s : State) : State :=
  let s := set_speed x s in
  if isPlaying s then play (pause s) else s.

(** The [input] listener of the progress bar. *)
Definition progressBar_oninput (value : Q) (s : State) : State :=
  let s := set_currentTick (Qfloor ((value / 100) * inject_Z TOTAL_TICKS)) s in
  updateTimeDisplay s.

Definition instrumentSelect_onchange (v : string) (s : State) : State :=
  set_selectedInst v s.

(** One element of the [songData] array of the generated script:
    [{ tick, sound, pitch }], the pitch being the literal [toFixed(2)]
    printed, in hundredths. *)
Record Line : Type := mkLine {
  line_tick : Z;
  line_sound : option string;
  line_pitch : Z
}.

Record Script : Type := mkScript {
  fileName : string;
  SONG_ID : Z;
  lines : list Line
}.

Definition mcInstruments : list (string * string) :=
  [("harp", "note.harp"); ("bass", "note.bass"); ("guitar", "note.guitar");
   ("banjo", "note.banjo"); ("pling", "note.pling")]%string.

Definition lookup (k : string) (m : list (string * string)) : option string :=
  option_map snd (find (fun e => String.eqb (fst e) k) m).

(** [generateBedrockScript()], with [random] the value of [Math.random()].
    The note store is only read. *)
Definition generateBedrockScript (random : Q) (s : State) : State * Script :=
  let fileId := Qfloor (random * 1000) + 1 in
  let fileName := ("music" ++ show fileId ++ ".js")%string in
  let notesCode :=
    map (fun note =>
           let mcPitch := pow 2 ((IZR (Song.pitch note) - 12) / 12) in
           mkLine (tick note) (lookup (inst note) mcInstruments) (toFixed2 mcPitch))
        (songData s) in
  (s, mkScript fileName fileId notesCode).

Definition advance (s : State) : State :=
  match timers s with
  | [] => s
  | _ :: _ => interval_callback s
  end.

Inductive step : State -> State -> Prop :=
| step_toggle s t p :
    0 <= t < TOTAL_TICKS -> 0 <= p < NOTES_COUNT -> step s (toggleNote t p s)
| step_select s v : step s (instrumentSelect_onchange v s)
| step_speed s x : step s (speedInput_onchange x s)
| step_repeat s b : step s (set_repeatCheckbox b s)
| step_play s : step s (play s)
| step_pause s : step s (pause s)
| step_stop s : step s (stop s)
| step_seek s v : (0 <= v <= 100)%Q -> step s (progressBar_oninput v s)
| step_interval s h ms : In (h, ms) (timers s) -> step s (interval_callback s)
| step_download s r : (0 <= r < 1)%Q -> step s (fst (generateBedrockScript r s)).

Inductive reachable : State -> Prop :=
| reach_init field : reachable (init field)
| reach_step s s' : reachable s -> step s s' -> reachable s'.

(** The song length as a number of firings. *)
Definition total : nat := Z.to_nat TOTAL_TICKS.

(** The state after [play()] and [n] firings of the timer. *)
Definition run (s : State) (n : nat) : State := Nat.iter n advance (play s).

(** The transport invariant, as in part_000. *)
Definition transport_ok (s : State) : Prop :=
  0 <= currentTick s <= TOTAL_TICKS /\
  if isPlaying s
  then exists h ms, playbackInterval s = Some h /\ timers s = [(h, ms)]
  else timers s = [].

(** The player of the generated script: [playSong] starts at tick 0 and
    runs its callback every game tick until it clears its own run.  The
    record holds the tick, whether the run is still scheduled, the sounds
    played so far (sound id and pitch literal) and the number of
    end-of-music messages sent. *)
Record Player : Type := mkPlayer {
  player_tick : Z;
  player_live : bool;
  player_sounds : list (option string * Z);
  player_messages : nat
}.

Definition playSong_start : Player := mkPlayer 0 true [] 0.

(** The callback [playSong] hands to [system.runInterval]; the generated
    [TOTAL_TICKS] is the editor's. *)
Definition playSong_callback (script : Script) (p : Player) : Player :=
  if player_tick p >=? TOTAL_TICKS then
    mkPlayer (player_tick p) false (player_sounds p) (S (player_messages p))
  else
    let notes := filter (fun n => line_tick n =? player_tick p) (lines script) in
    mkPlayer (player_tick p + 1) (player_live p)
      (player_sounds p ++ map (fun n => (line_sound n, line_pitch n)) notes)
      (player_messages p).

(** One game tick. *)
Definition playSong_tick (script : Script) (p : Player) : Player :=
  if player_live p then playSong_callback script p else p.

Definition playSong (script : Script) (n : nat) : Player :=
  Nat.iter n (playSong_tick script) playSong_start.

End Script1.

(** ** src/script.js, second document (lines 251-488) *)

Module Script2.

Definition CONFIG : Part000.Config := Part000.mkConfig 20 400 25.

Definition State : Type := Song.State Z.

Definition init (field : num) : State := initial 0 field.

Definition playPreviewSound (i p : Z) (s : State) : State :=
  emit (Preview i p) s.

Definition toggleNote (t p : Z) (s : State) : State :=
  let existingIndex := findIndex (at_cell t p) (songData s) in
  if existingIndex >? -1 then
    set_songData (splice1 existingIndex (songData s)) s
  else
    let s := set_songData (push (mkNote t p (selectedInst s)) (songData s)) s in
    playPreviewSound (selectedInst s) p s.

Definition updateTimeDisplay (s : State) : State :=
  emit (UIUpdate (currentTick s)) s.

Definition pause (s : State) : State :=
  let s := set_isPlaying false s in
  match playbackInterval s with
  | Some h => clearInterval h s
  | None => s
  end.

Definition stop (s : State) : State :=
  let s := pause s in
  let s := set_currentTick 0 s in
  updateTimeDisplay s.

Definition interval_callback (s : State) : State :=
  if currentTick s >=? Part000.totalTicks CONFIG then stop s
  else
    let notes := filter (at_tick (currentTick s)) (songData s) in
    let s := fold_left (fun s n => playPreviewSound (inst n) (Song.pitch n) s) notes s in
    let s := updateTimeDisplay s in
    set_currentTick (currentTick s + 1) s.

(** [play()] of this document starts an interval whenever it is called. *)
Definition play (s : State) : State :=
  let s := set_isPlaying true s in
  let speed := or_default (speedInput s) (of_Z 1) in
  let msPerTick :=
    div (div (of_Z 1000) (of_Z (Part000.ticksPerSecond CONFIG))) speed in
  let '(h, s) := setInterval msPerTick s in
  set_playbackInterval (Some h) s.

Definition progressBar_oninput (value : Q) (s : State) : State :=
  let s := set_currentTick
             (Qfloor ((value / 100) * inject_Z (Part000.totalTicks CONFIG))) s in
  updateTimeDisplay s.

Definition generateApiFile (random : Q) (s : State) : State * Api.File :=
  let fileId := Qfloor (random * 900) + 100 in
  let filename := ("music" ++ show fileId ++ ".js")%string in
  let speed := speedInput s in
  let s := set_songData (sort tick (songData s)) s in
  let dataString := join "," (map Api.tuple_text (songData s)) in
  let fileContent :=
    Api.mkMusic fileId speed Api.sound_ids (map Api.tuple (songData s)) in
  (s, Api.mkFile filename dataString fileContent).

Definition advance (s : State) : State :=
  match timers s with
  | [] => s
  | _ :: _ => interval_callback s
  end.

(** What can happen to the page of this document. *)
Inductive step : State -> State -> Prop :=
| step_toggle s t p :
    0 <= t < Part000.totalTicks CONFIG -> 0 <= p < Part000.pitchRange CONFIG ->
    step s (toggleNote t p s)
| step_select s v : step s (set_selectedInst v s)
| step_speed s x : step s (set_speedInput x s)
| step_play s : step s (play s)
| step_pause s : step s (pause s)
| step_stop s : step s (stop s)
| step_seek s v : (0 <= v <= 100)%Q -> step s (progressBar_oninput v s)
| step_interval s h ms : In (h, ms) (timers s) -> step s (interval_callback s)
| step_download s r : (0 <= r < 1)%Q -> step s (fst (generateApiFile r s)).

Inductive steps : State -> State -> Prop :=
| steps_refl s : steps s s
| steps_step s s' s'' : steps s s' -> step s' s'' -> steps s s''.

(** The first interval is live and out of reach of [clearInterval]: it is
    in the table, [playbackInterval] names another handle, and no later
    handle can be 1. *)
Definition leaked (s : State) : Prop :=
  In 1%positive (map fst (timers s)) /\
  (forall h, playbackInterval s = Some h -> h <> 1%positive) /\
  (1 < nextTimer s)%positive.

End Script2.

(** ** src/script.js, third document (lines 489-753): the transport *)

Module Script3.

Definition CONFIG : Part000.Config := Part000.mkConfig 20 400 25.

Definition State : Type := Song.State Z.

Definition init (field : num) : State := initial 0 field.

Definition playPreviewSound (i p : Z) (s : State) : State :=
  emit (Preview i p) s.

(** [updatePlayHead(); updateTimeDisplay()]: playhead, scroll position,
    progress bar and clock are set from [currentTick]. *)
Definition updatePlayHead (s : State) : State :=
  emit (UIUpdate (currentTick s)) s.

Definition pause (s : State) : State :=
  if negb (isPlaying s) then s
  else
    let s := set_isPlaying false s in
    match playbackInterval s with
    | Some h => set_playbackInterval None (clearInterval h s)
    | None => s
    end.

Definition stop (s : State) : State :=
  let s := pause s in
  let s := set_currentTick 0 s in
  updatePlayHead s.

Definition interval_callback (s : State) : State :=
  if currentTick s >=? Part000.totalTicks CONFIG then stop s
  else
    let notes := filter (at_tick (currentTick s)) (songData s) in
    let s := fold_left (fun s n => playPreviewSound (inst n) (Song.pitch n) s) notes s in
    let s := updatePlayHead s in
    set_currentTick (currentTick s + 1) s.

Definition play (s : State) : State :=
  if isPlaying s then s
  else
    let s := set_isPlaying true s in
    let speed := or_default (speedInput s) (of_Z 1) in
    let msPerTick :=
      div (div (of_Z 1000) (of_Z (Part000.ticksPerSecond CONFIG))) speed in
    let '(h, s) := setInterval msPerTick s in
    set_playbackInterval (Some h) s.

(** The scrubber. *)
Definition progressBar_oninput (value : Q) (s : State) : State :=
  let wasPlaying := isPlaying s in
  let s := if wasPlaying then pause s else s in
  let s := set_currentTick
             (Qfloor ((value / 100) * inject_Z (Part000.totalTicks CONFIG))) s in
  let s := updatePlayHead s in
  if wasPlaying then play s else s.

(** What can happen to the page; [toggleNote] and [generateApiFile] of this
    document are those of the second document word for word. *)
Inductive step : State -> State -> Prop :=
| step_toggle s t p :
    0 <= t < Part000.totalTicks CONFIG -> 0 <= p < Part000.pitchRange CONFIG ->
    step s (Script2.toggleNote t p s)
| step_select s v : step s (set_selectedInst v s)
| step_speed s x : step s (set_speedInput x s)
| step_play s : step s (play s)
| step_pause s : step s (pause s)
| step_stop s : step s (stop s)
| step_seek s v : (0 <= v <= 100)%Q -> step s (progressBar_oninput v s)
| step_interval s h ms : In (h, ms) (timers s) -> step s (interval_callback s)
| step_download s r : (0 <= r < 1)%Q -> step s (fst (Script2.generateApiFile r s)).

Inductive reachable : State -> Prop :=
| reach_init field : reachable (init field)
| reach_step s s' : reachable s -> step s s' -> reachable s'.

(** The handle is held exactly while the clock runs. *)
Definition handle_ok (s : State) : Prop :=
  if isPlaying s
  then exists h ms, playbackInterval s = Some h /\ timers s = [(h, ms)]
  else playbackInterval s = None /\ timers s = [].

(** The transport invariant of this document. *)
Definition transport_ok (s : State) : Prop :=
  handle_ok s /\ 0 <= currentTick s <= Part000.totalTicks CONFIG.

End Script3.

(** * Properties *)

(** ** Arrays *)

Section ArrayFacts.
Context {A : Type}.
Implicit Types (f : A -> bool) (l : list A).

Lemma find_index_none f l :
  find_index f l = None <-> existsb f l = false.
Proof.
  induction l as [|x l IH]; simpl; [tauto|].
  destruct (f x); simpl.
  - split; discriminate.
  - destruct (find_index f l); simpl in *; split; intro H;
      try discriminate; try reflexivity.
    + apply IH in H. discriminate.
    + now apply IH.
Qed.

Lemma find_index_some f l i :
  find_index f l = Some i ->
  exists l1 x l2,
    l = l1 ++ x :: l2 /\ length l1 = i /\ f x = true /\ existsb f l1 = false.
Proof.
  revert i. induction l as [|x l IH]; simpl; intros i H; [discriminate|].
  destruct (f x) eqn:Hx.
  - injection H as <-. exists [], x, l. auto.
  - destruct (find_index f l) as [j|]; simpl in H; [|discriminate].
    injection H as <-.
    destruct (IH j eq_refl) as (l1 & y & l2 & -> & <- & Hy & Hl1).
    exists (x :: l1), y, l2. simpl. rewrite Hx. auto.
Qed.

Lemma findIndex_absent f l :
  existsb f l = false -> findIndex f l = -1.
Proof.
  intro H. unfold findIndex. apply find_index_none in H. now rewrite H.
Qed.

Lemma findIndex_present f l :
  existsb f l = true ->
  exists l1 x l2,
    l = l1 ++ x :: l2 /\ findIndex f l = Z.of_nat (length l1) /\
    f x = true /\ existsb f l1 = false.
Proof.
  intro H. unfold findIndex.
  destruct (find_index f l) as [i|] eqn:E.
  - destruct (find_index_some _ _ _ E) as (l1 & x & l2 & -> & <- & Hx & Hl1).
    exists l1, x, l2. auto.
  - apply find_index_none in E. congruence.
Qed.

Lemma findIndex_first f l x l2 :
  existsb f l = false -> f x = true ->
  findIndex f (l ++ x :: l2) = Z.of_nat (length l).
Proof.
  intros Hl Hx. unfold findIndex.
  replace (find_index f (l ++ x :: l2)) with (Some (length l)); [reflexivity|].
  induction l as [|y l IH]; simpl in *.
  - now rewrite Hx.
  - destruct (f y); [discriminate|]. simpl in Hl. now rewrite <- IH.
Qed.

Lemma splice1_middle l1 x l2 :
  splice1 (Z.of_nat (length l1)) (l1 ++ x :: l2) = l1 ++ l2.
Proof.
  unfold splice1. rewrite Nat2Z.id.
  induction l1 as [|y l1 IH]; simpl; [reflexivity|].
  f_equal. exact IH.
Qed.

Lemma filter_none f l : existsb f l = false -> filter f l = [].
Proof.
  induction l as [|x l IH]; simpl; [reflexivity|].
  destruct (f x); simpl; [discriminate|exact IH].
Qed.

Lemma filter_negb_all f l :
  existsb f l = false -> filter (fun x => negb (f x)) l = l.
Proof.
  induction l as [|x l IH]; simpl; [reflexivity|].
  destruct (f x); simpl; [discriminate|]. intro H. now rewrite IH.
Qed.

(** *** The stable sort *)

Variable key : A -> Z.

Lemma insert_perm x l : Permutation (insert key x l) (x :: l).
Proof.
  induction l as [|y l IH]; simpl; [reflexivity|].
  destruct (key x - key y <=? 0); [reflexivity|].
  rewrite IH. apply perm_swap.
Qed.

Lemma sort_perm l : Permutation (sort key l) l.
Proof.
  induction l as [|x l IH]; simpl; [reflexivity|].
  rewrite insert_perm. now constructor.
Qed.

Lemma insert_sorted x l :
  StronglySorted (by_key key) l -> StronglySorted (by_key key) (insert key x l).
Proof.
  induction 1 as [|y l Hl IH Hy]; simpl.
  - repeat constructor.
  - destruct (key x - key y <=? 0) eqn:E.
    + apply Z.leb_le in E. constructor; [now constructor|].
      constructor; [unfold by_key; lia|].
      eapply Forall_impl; [|exact Hy]. unfold by_key. intros; lia.
    + apply Z.leb_gt in E. constructor; [exact IH|].
      eapply Permutation_Forall; [symmetry; apply insert_perm|].
      constructor; [unfold by_key; lia|exact Hy].
Qed.

Lemma sort_sorted l : StronglySorted (by_key key) (sort key l).
Proof.
  induction l as [|x l IH]; simpl; [constructor|now apply insert_sorted].
Qed.

Lemma insert_filter_key k x l :
  filter (fun y => key y =? k) (insert key x l) =
  filter (fun y => key y =? k) (x :: l).
Proof.
  induction l as [|y l IH]; [reflexivity|].
  cbn [insert]. destruct (key x - key y <=? 0) eqn:E; [reflexivity|].
  apply Z.leb_gt in E. cbn [filter] in *. rewrite IH.
  destruct (key x =? k) eqn:Ex; [|reflexivity].
  apply Z.eqb_eq in Ex.
  destruct (key y =? k) eqn:Ey; [|reflexivity].
  apply Z.eqb_eq in Ey. lia.
Qed.

(** Stability: the notes of one key keep their order. *)
Lemma sort_stable k l :
  filter (fun y => key y =? k) (sort key l) = filter (fun y => key y =? k) l.
Proof.
  induction l as [|x l IH]; [reflexivity|].
  cbn [sort fold_right]. fold (sort key l).
  rewrite insert_filter_key. cbn [filter]. now rewrite IH.
Qed.

Lemma sort_sorted_id l : StronglySorted (by_key key) l -> sort key l = l.
Proof.
  induction 1 as [|x l Hl IH Hx]; [reflexivity|].
  cbn [sort fold_right]. fold (sort key l). rewrite IH.
  destruct l as [|y l]; [reflexivity|].
  cbn [insert]. inversion Hx as [|? ? Hxy _]; subst. unfold by_key in Hxy.
  destruct (key x - key y <=? 0) eqn:E; [reflexivity|].
  apply Z.leb_gt in E. lia.
Qed.

End ArrayFacts.

(** ** The note store under a toggle *)

Section ToggleFacts.
Context {I : Type}.
Implicit Types (l : list (Note I)) (n : Note I) (sel : I).

Lemma at_cell_spec t p n : at_cell t p n = true <-> cell n = (t, p).
Proof.
  unfold at_cell, cell. rewrite andb_true_iff, !Z.eqb_eq.
  split; [intros [-> ->]; reflexivity|intro H; injection H; auto].
Qed.

Lemma occupied_spec t p l : occupied t p l = true <-> In (t, p) (map cell l).
Proof.
  unfold occupied. rewrite existsb_exists, in_map_iff.
  split; intros (n & H1 & H2).
  - exists n. split; [now apply at_cell_spec|exact H1].
  - exists n. split; [exact H2|now apply at_cell_spec].
Qed.

Lemma occupied_app t p l1 l2 :
  occupied t p (l1 ++ l2) = occupied t p l1 || occupied t p l2.
Proof. apply existsb_app. Qed.

Lemma toggled_absent sel t p l :
  occupied t p l = false -> toggled sel t p l = l ++ [mkNote t p sel].
Proof.
  intro H. unfold toggled. rewrite (findIndex_absent _ _ H). reflexivity.
Qed.

Lemma toggled_present sel t p l :
  occupied t p l = true ->
  exists l1 n l2,
    l = l1 ++ n :: l2 /\ at_cell t p n = true /\ occupied t p l1 = false /\
    toggled sel t p l = l1 ++ l2.
Proof.
  intro H. destruct (findIndex_present _ _ H) as (l1 & n & l2 & -> & E & Hn & Hl1).
  exists l1, n, l2. repeat split; auto.
  unfold toggled. rewrite E.
  replace (Z.of_nat (length l1) >? -1) with true
    by (symmetry; apply Z.gtb_lt; lia).
  apply splice1_middle.
Qed.

(** The notes of the other cells stay, as they are and in their order. *)
Lemma toggled_others sel t p l :
  filter (fun n => negb (at_cell t p n)) (toggled sel t p l) =
  filter (fun n => negb (at_cell t p n)) l.
Proof.
  destruct (occupied t p l) eqn:H.
  - destruct (toggled_present sel _ _ _ H) as (l1 & n & l2 & -> & Hn & _ & ->).
    rewrite !filter_app. simpl. now rewrite Hn.
  - rewrite (toggled_absent sel _ _ _ H), filter_app. simpl.
    unfold at_cell at 2. simpl. rewrite !Z.eqb_refl. simpl. apply app_nil_r.
Qed.

Lemma unique_cells_remove l1 n l2 :
  unique_cells (l1 ++ n :: l2) ->
  unique_cells (l1 ++ l2) /\
  occupied (tick n) (pitch n) (l1 ++ l2) = false.
Proof.
  unfold unique_cells. rewrite !map_app. simpl. intro H.
  apply NoDup_remove in H. destruct H as [H1 H2]. split; [exact H1|].
  destruct (occupied (tick n) (pitch n) (l1 ++ l2)) eqn:E; [|reflexivity].
  apply occupied_spec in E. rewrite map_app in E. contradiction.
Qed.

Lemma unique_cells_push t p sel l :
  unique_cells l -> occupied t p l = false ->
  unique_cells (l ++ [mkNote t p sel]).
Proof.
  unfold unique_cells. intros H E. rewrite map_app. simpl.
  eapply Permutation_NoDup; [apply Permutation_cons_append|].
  constructor; [|exact H].
  intro Hin. apply (occupied_spec t p l) in Hin. congruence.
Qed.

Lemma toggled_unique sel t p l :
  unique_cells l -> unique_cells (toggled sel t p l).
Proof.
  intro H. destruct (occupied t p l) eqn:E.
  - destruct (toggled_present sel _ _ _ E) as (l1 & n & l2 & -> & _ & _ & ->).
    now apply unique_cells_remove in H.
  - rewrite (toggled_absent sel _ _ _ E). now apply unique_cells_push.
Qed.

(** Adding to a free cell and toggling again gives the array back. *)
Lemma toggled_twice_free sel sel' t p l :
  occupied t p l = false -> toggled sel' t p (toggled sel t p l) = l.
Proof.
  intro H. rewrite (toggled_absent sel _ _ _ H). unfold toggled.
  assert (E : findIndex (at_cell t p) (l ++ [mkNote t p sel]) =
              Z.of_nat (length l)).
  { apply findIndex_first; [exact H|].
    unfold at_cell. simpl. now rewrite !Z.eqb_refl. }
  rewrite E.
  replace (Z.of_nat (length l) >? -1) with true
    by (symmetry; apply Z.gtb_lt; lia).
  rewrite splice1_middle. apply app_nil_r.
Qed.

Lemma toggled_twice sel sel' t p l :
  unique_cells l ->
  occupied t p (toggled sel' t p (toggled sel t p l)) = occupied t p l.
Proof.
  intro H. destruct (occupied t p l) eqn:E.
  - destruct (toggled_present sel _ _ _ E) as (l1 & n & l2 & -> & Hn & _ & ->).
    apply unique_cells_remove in H. destruct H as [_ H].
    apply at_cell_spec in Hn. unfold cell in Hn. injection Hn as Ht Hp.
    rewrite Ht, Hp in H.
    rewrite (toggled_absent sel' _ _ _ H), occupied_app. simpl.
    unfold at_cell. simpl. rewrite !Z.eqb_refl. simpl. apply orb_true_r.
  - rewrite (toggled_twice_free _ _ _ _ _ E). exact E.
Qed.

End ToggleFacts.

(** ** part_000: the note store *)

Lemma Part000_toggleNote_songData (s : Part000.State) (t p : Z) :
  songData (Part000.toggleNote t p s) =
  toggled (selectedInst s) t p (songData s).
Proof.
  unfold Part000.toggleNote, toggled.
  destruct (findIndex (at_cell t p) (songData s) >? -1); reflexivity.
Qed.

Lemma Part000_toggleNote_selectedInst (s : Part000.State) (t p : Z) :
  selectedInst (Part000.toggleNote t p s) = selectedInst s.
Proof.
  unfold Part000.toggleNote.
  destruct (findIndex (at_cell t p) (songData s) >? -1); reflexivity.
Qed.

(** C10.  A toggle at (t, p) leaves the notes of every other cell in the
    array, unchanged and in their relative order; on a free cell it appends
    the new note, carrying the selected instrument, at the end; on an occupied
    cell it removes one element, the first note of that cell. *)
Theorem toggle_affects_only_its_cell (s : Part000.State) (t p : Z) :
  let s' := Part000.toggleNote t p s in
  filter (fun n => negb (at_cell t p n)) (songData s') =
    filter (fun n => negb (at_cell t p n)) (songData s)
  /\ (occupied t p (songData s) = false ->
      songData s' = songData s ++ [mkNote t p (selectedInst s)])
  /\ (occupied t p (songData s) = true ->
      exists l1 n l2,
        songData s = l1 ++ n :: l2 /\ at_cell t p n = true /\
        occupied t p l1 = false /\ songData s' = l1 ++ l2).
Proof.
  cbv zeta. rewrite Part000_toggleNote_songData. split; [|split].
  - apply toggled_others.
  - apply toggled_absent.
  - apply toggled_present.
Qed.

(** The same for the first document of script.js. *)
Lemma Script1_toggle_affects_only_its_cell (s : Script1.State) (t p : Z) :
  let s' := Script1.toggleNote t p s in
  filter (fun n => negb (at_cell t p n)) (songData s') =
    filter (fun n => negb (at_cell t p n)) (songData s)
  /\ (occupied t p (songData s) = false ->
      songData s' = songData s ++ [mkNote t p (selectedInst s)])
  /\ (occupied t p (songData s) = true ->
      exists l1 n l2,
        songData s = l1 ++ n :: l2 /\ at_cell t p n = true /\
        occupied t p l1 = false /\ songData s' = l1 ++ l2).
Proof.
  cbv zeta.
  assert (E : songData (Script1.toggleNote t p s) =
              toggled (selectedInst s) t p (songData s)).
  { unfold Script1.toggleNote, toggled.
    destruct (findIndex (at_cell t p) (songData s) >? -1); reflexivity. }
  rewrite E. split; [|split].
  - apply toggled_others.
  - apply toggled_absent.
  - apply toggled_present.
Qed.

(** C2, as the code has it.  In a store that holds at most one note per
    cell, toggling (t, p) twice restores the occupancy of the cell: a cell
    that was free is free again, and the whole array is as it was; a cell that
    held a note holds one again, the old note being replaced by a new one,
    with the selected instrument, at the end of the array. *)
Theorem toggle_twice_restores_occupancy (s : Part000.State) (t p : Z) :
  unique_cells (songData s) ->
  let s2 := Part000.toggleNote t p (Part000.toggleNote t p s) in
  occupied t p (songData s2) = occupied t p (songData s) /\
  (occupied t p (songData s) = false ->
   songData s2 = songData s /\ occupied t p (songData s2) = false) /\
  (occupied t p (songData s) = true ->
   exists l1 n l2,
     songData s = l1 ++ n :: l2 /\ at_cell t p n = true /\
     songData s2 = (l1 ++ l2) ++ [mkNote t p (selectedInst s)]).
Proof.
  intros H. cbv zeta.
  rewrite !Part000_toggleNote_songData, Part000_toggleNote_selectedInst.
  split; [|split].
  - now apply toggled_twice.
  - intro E. rewrite (toggled_twice_free _ _ _ _ _ E). auto.
  - intro E.
    destruct (toggled_present (selectedInst s) _ _ _ E)
      as (l1 & n & l2 & E1 & Hn & _ & E2).
    exists l1, n, l2. split; [exact E1|]. split; [exact Hn|].
    rewrite E2. apply toggled_absent.
    rewrite E1 in H. apply unique_cells_remove in H. destruct H as [_ H].
    apply at_cell_spec in Hn. unfold cell in Hn. injection Hn as Ht Hp.
    now rewrite Ht, Hp in H.
Qed.

Lemma toggle_twice_restores_occupancy_witness :
  unique_cells (songData (Part000.init (of_Z 1))) /\
  songData (Part000.toggleNote 3 7 (Part000.toggleNote 3 7 (Part000.init (of_Z 1)))) = [].
Proof.
  assert (U : unique_cells (songData (Part000.init (of_Z 1)))) by constructor.
  split; [exact U|].
  apply (toggle_twice_restores_occupancy (Part000.init (of_Z 1)) 3 7 U).
  reflexivity.
Defined.

(** C2 as stated fails on an occupied cell: after one click on cell (0, 0)
    the store is reachable and holds a note there; two more toggles of the
    cell leave a note at (0, 0). *)
Lemma toggle_twice_counterexample :
  let s := Part000.toggleNote 0 0 (Part000.init (of_Z 1)) in
  Part000.reachable s /\
  occupied 0 0 (songData (Part000.toggleNote 0 0 (Part000.toggleNote 0 0 s))) = true.
Proof.
  split.
  - eapply Part000.reach_step; [apply Part000.reach_init|].
    apply Part000.step_toggle; simpl; lia.
  - reflexivity.
Qed.

(** Toggling twice restores the occupancy in the first document of script.js
    as well, whose [toggleNote] is the same function on its array. *)
Lemma Script1_toggle_twice (s : Script1.State) (t p : Z) :
  unique_cells (songData s) ->
  occupied t p (songData (Script1.toggleNote t p (Script1.toggleNote t p s))) =
  occupied t p (songData s).
Proof.
  intro H.
  assert (E : forall s0 : Script1.State,
            songData (Script1.toggleNote t p s0) =
            toggled (selectedInst s0) t p (songData s0)).
  { intro s0. unfold Script1.toggleNote, toggled.
    destruct (findIndex (at_cell t p) (songData s0) >? -1); reflexivity. }
  rewrite !E. now apply toggled_twice.
Qed.

(** ** Logs and previews *)

Section LogFacts.
Context {I : Type}.
Implicit Types (s : State I) (l : list (Event I)).

Lemma ui_ticks_app l1 l2 : ui_ticks (l1 ++ l2) = ui_ticks l1 ++ ui_ticks l2.
Proof. apply flat_map_app. Qed.

Lemma ui_ticks_previews (notes : list (Note I)) :
  ui_ticks (map (fun n => Preview (inst n) (pitch n)) notes) = [].
Proof. induction notes as [|n notes IH]; [reflexivity|exact IH]. Qed.

(** Playing the notes of a tick only appends their previews to the log. *)
Lemma fold_previews (notes : list (Note I)) s :
  fold_left (fun s n => emit (Preview (inst n) (pitch n)) s) notes s =
  mkState (songData s) (isPlaying s) (currentTick s) (playbackInterval s)
    (selectedInst s) (speed s) (speedInput s) (repeatCheckbox s)
    (timers s) (nextTimer s)
    (log s ++ map (fun n => Preview (inst n) (pitch n)) notes).
Proof.
  revert s. induction notes as [|n notes IH]; intro s; simpl.
  - destruct s; simpl. now rewrite app_nil_r.
  - rewrite IH. simpl. now rewrite <- app_assoc.
Qed.

Lemma clear_single (h : handle) (ms : num) : clear h [(h, ms)] = [].
Proof. unfold clear. simpl. now rewrite Pos.eqb_refl. Qed.

End LogFacts.

(** Where the slider can put the tick. *)
Lemma seek_in_range (v : Q) (total : Z) :
  0 <= total -> (0 <= v <= 100)%Q ->
  0 <= Qfloor ((v / 100) * inject_Z total) <= total.
Proof.
  intros Ht [H0 H1].
  assert (Hq : (0 <= inject_Z total)%Q)
    by (change 0%Q with (inject_Z 0); now rewrite <- Zle_Qle).
  split.
  - change 0 with (Qfloor (inject_Z 0)). apply Qfloor_resp_le.
    change (inject_Z 0) with 0%Q.
    apply Qmult_le_0_compat; [|exact Hq].
    apply Qle_shift_div_l; [reflexivity|]. now rewrite Qmult_0_l.
  - rewrite <- (Qfloor_Z total) at 2. apply Qfloor_resp_le.
    rewrite <- (Qmult_1_l (inject_Z total)) at 2.
    apply Qmult_le_compat_r; [|exact Hq].
    apply Qle_shift_div_r; [reflexivity|]. now rewrite Qmult_1_l.
Qed.

(** Where [Math.floor(Math.random() * span) + base] can fall. *)
Lemma draw_in_range (r : Q) (span base : Z) :
  0 < span -> (0 <= r < 1)%Q ->
  base <= Qfloor (r * inject_Z span) + base <= base + span - 1.
Proof.
  intros Hs [H0 H1].
  assert (Hq : (0 < inject_Z span)%Q)
    by (change 0%Q with (inject_Z 0); now rewrite <- Zlt_Qlt).
  assert (L : 0 <= Qfloor (r * inject_Z span)).
  { change 0 with (Qfloor (inject_Z 0)). apply Qfloor_resp_le.
    change (inject_Z 0) with 0%Q.
    apply Qmult_le_0_compat; [exact H0|now apply Qlt_le_weak]. }
  assert (U : Qfloor (r * inject_Z span) < span).
  { rewrite Zlt_Qlt. eapply Qle_lt_trans; [apply Qfloor_le|].
    rewrite <- (Qmult_1_l (inject_Z span)) at 2.
    now apply Qmult_lt_compat_r. }
  lia.
Qed.

(** ** part_000: the transport clock *)

Module Part000Facts.
Import Part000.

Implicit Types s : State.

Lemma callback_advancing s :
  currentTick s < totalTicks CONFIG ->
  interval_callback s =
  mkState (songData s) (isPlaying s) (currentTick s + 1) (playbackInterval s)
    (selectedInst s) (speed s) (speedInput s) (repeatCheckbox s)
    (timers s) (nextTimer s)
    (log s ++
       map (fun n => Preview (inst n) (pitch n))
           (filter (at_tick (currentTick s)) (songData s)) ++
       [UIUpdate (currentTick s)]).
Proof.
  intro H. unfold interval_callback.
  replace (currentTick s >=? totalTicks CONFIG) with false
    by (symmetry; rewrite Z.geb_leb; apply Z.leb_gt; exact H).
  cbv zeta. unfold playPreview, State. rewrite fold_previews.
  unfold updateUI, emit, set_currentTick. simpl. now rewrite <- app_assoc.
Qed.

Lemma callback_at_end s :
  totalTicks CONFIG <= currentTick s -> interval_callback s = stop s.
Proof.
  intro H. unfold interval_callback.
  replace (currentTick s >=? totalTicks CONFIG) with true; [reflexivity|].
  symmetry. rewrite Z.geb_leb. apply Z.leb_le. exact H.
Qed.

Lemma stop_stops s :
  transport_ok s ->
  isPlaying (stop s) = false /\ currentTick (stop s) = 0 /\
  timers (stop s) = [] /\ log (stop s) = log s ++ [UIUpdate 0] /\
  songData (stop s) = songData s.
Proof.
  intros [_ H]. unfold stop, pause, updateUI.
  destruct (isPlaying s).
  - destruct H as (h & ms & Hh & Ht). simpl. rewrite Hh.
    unfold clearInterval. simpl. rewrite Ht, clear_single. auto.
  - simpl. destruct (playbackInterval s); simpl; rewrite ?H; auto.
Qed.

Lemma callback_never_past_the_end s :
  currentTick (interval_callback s) <= totalTicks CONFIG.
Proof.
  destruct (Z_lt_le_dec (currentTick s) (totalTicks CONFIG)) as [H|H].
  - rewrite (callback_advancing s H). simpl in *. lia.
  - rewrite (callback_at_end s H). unfold stop, updateUI. simpl. lia.
Qed.

Lemma play_when_stopped s :
  isPlaying s = false ->
  play s =
  mkState (songData s) true (currentTick s) (Some (nextTimer s))
    (selectedInst s) (speed s) (speedInput s) (repeatCheckbox s)
    (timers s ++
       [(nextTimer s,
         div (div (of_Z 1000) (of_Z (ticksPerSecond CONFIG)))
             (or_default (speedInput s) (of_Z 1)))])
    (Pos.succ (nextTimer s)) (log s).
Proof. intro H. unfold play. rewrite H. reflexivity. Qed.

Lemma play_when_playing s : isPlaying s = true -> play s = s.
Proof. intro H. unfold play. now rewrite H. Qed.

(** *** Preservation of the invariant *)

Lemma ok_init field : transport_ok (init field).
Proof. split; simpl; [lia|reflexivity]. Qed.

Lemma ok_toggleNote t p s : transport_ok s -> transport_ok (toggleNote t p s).
Proof.
  unfold transport_ok, toggleNote.
  destruct (findIndex (at_cell t p) (songData s) >? -1); simpl; auto.
Qed.

Lemma ok_play s : transport_ok s -> transport_ok (play s).
Proof.
  intros [Hb Ht]. destruct (isPlaying s) eqn:E.
  - rewrite (play_when_playing s E). split; [exact Hb|now rewrite E].
  - rewrite (play_when_stopped s E). split; simpl; [exact Hb|].
    rewrite Ht. simpl. eexists _, _. split; reflexivity.
Qed.

Lemma ok_pause s : transport_ok s -> transport_ok (pause s).
Proof.
  intros [Hb Ht]. unfold pause. destruct (isPlaying s).
  - destruct Ht as (h & ms & Hh & Ht). simpl. rewrite Hh.
    split; simpl; [exact Hb|]. rewrite Ht. apply clear_single.
  - simpl. destruct (playbackInterval s); split; simpl; auto.
    now rewrite Ht.
Qed.

Lemma ok_stop s : transport_ok s -> transport_ok (stop s).
Proof.
  intro H. destruct (stop_stops s H) as (H1 & H2 & H3 & _).
  split; [rewrite H2; simpl; lia|now rewrite H1].
Qed.

Lemma ok_callback s : transport_ok s -> transport_ok (interval_callback s).
Proof.
  intro H. destruct (Z_lt_le_dec (currentTick s) (totalTicks CONFIG)) as [L|L].
  - rewrite (callback_advancing s L). destruct H as [Hb Ht].
    split; simpl in *; [lia|exact Ht].
  - rewrite (callback_at_end s L). now apply ok_stop.
Qed.

Lemma ok_seek v s :
  (0 <= v <= 100)%Q -> transport_ok s -> transport_ok (progress_oninput v s).
Proof.
  intros Hv H. unfold progress_oninput.
  assert (P : 0 <= totalTicks CONFIG) by (simpl; lia).
  assert (R := seek_in_range v (totalTicks CONFIG) P Hv).
  destruct (isPlaying s) eqn:E.
  - apply ok_play. apply ok_pause in H. destruct H as [_ Ht].
    split; [exact R|exact Ht].
  - destruct H as [_ Ht]. split; [exact R|exact Ht].
Qed.

Lemma ok_generateFile r s : transport_ok s -> transport_ok (fst (generateFile r s)).
Proof. intro H. exact H. Qed.

Lemma ok_step s s' : step s s' -> transport_ok s -> transport_ok s'.
Proof.
  intros Hs Hok. destruct Hs.
  - now apply ok_toggleNote.
  - exact Hok.
  - exact Hok.
  - now apply ok_play.
  - now apply ok_pause.
  - now apply ok_stop.
  - now apply ok_seek.
  - now apply ok_callback.
  - now apply ok_generateFile.
Qed.

Lemma reachable_ok s : reachable s -> transport_ok s.
Proof.
  induction 1 as [field|s s' _ IH Hs]; [apply ok_init|].
  exact (ok_step s s' Hs IH).
Qed.

(** The store invariant of the data model holds in every reachable state. *)
Lemma reachable_unique s : reachable s -> unique_cells (songData s).
Proof.
  induction 1 as [field|s s' _ IH Hs]; [constructor|].
  destruct Hs; try exact IH.
  - rewrite Part000_toggleNote_songData. now apply toggled_unique.
  - unfold play. destruct (isPlaying s); exact IH.
  - unfold pause. simpl. destruct (playbackInterval s); exact IH.
  - unfold stop, pause. simpl. destruct (playbackInterval s); exact IH.
  - unfold progress_oninput, play, pause.
    destruct (isPlaying s); simpl; [|exact IH].
    destruct (playbackInterval s); exact IH.
  - destruct (Z_lt_le_dec (currentTick s) (totalTicks CONFIG)) as [L|L].
    + rewrite (callback_advancing s L). exact IH.
    + rewrite (callback_at_end s L). unfold stop, pause. simpl.
      destruct (playbackInterval s); exact IH.
  - unfold unique_cells. simpl.
    eapply Permutation_NoDup; [|exact IH].
    apply Permutation_map. symmetry. apply sort_perm.
Qed.

End Part000Facts.

Section Part000Run.
Import Part000 Part000Facts.

Variable s : State.
#[local] Abbreviation run := (Part000.run s).
Hypothesis stopped : isPlaying s = false.
Hypothesis at_start : currentTick s = 0.
Hypothesis idle : timers s = [].

Lemma total_totalTicks : Z.of_nat total = totalTicks CONFIG.
Proof. reflexivity. Qed.

Lemma run_S (n : nat) : run (S n) = advance (run n).
Proof. reflexivity. Qed.

Lemma run_while_playing (n : nat) :
  (n <= total)%nat ->
  isPlaying (run n) = true /\
  currentTick (run n) = Z.of_nat n /\
  playbackInterval (run n) = Some (nextTimer s) /\
  (exists ms, timers (run n) = [(nextTimer s, ms)]) /\
  songData (run n) = songData s /\
  ui_ticks (log (run n)) = ui_ticks (log s) ++ map Z.of_nat (seq 0 n).
Proof.
  induction n as [|n IH]; intro Hn.
  - unfold Part000.run. cbn [Nat.iter]. rewrite (play_when_stopped s stopped).
    cbn [isPlaying currentTick playbackInterval timers songData log].
    rewrite idle, at_start, app_nil_r. simpl. repeat split; eauto.
  - destruct IH as (H1 & H2 & H3 & (ms & H4) & H5 & H6); [lia|].
    assert (E : run (S n) = interval_callback (run n)).
    { rewrite run_S. unfold advance. now rewrite H4. }
    assert (L : currentTick (run n) < totalTicks CONFIG).
    { rewrite H2, <- total_totalTicks. lia. }
    rewrite E, (callback_advancing _ L).
    cbn [isPlaying currentTick playbackInterval timers songData log].
    rewrite H1, H2, H3, H4, H5. repeat split; eauto; [lia|].
    rewrite !ui_ticks_app, ui_ticks_previews, H6, seq_S, map_app.
    cbn [ui_ticks flat_map map app Nat.add]. now rewrite <- app_assoc.
Qed.

Lemma run_stops :
  isPlaying (run (S total)) = false /\
  currentTick (run (S total)) = 0 /\
  timers (run (S total)) = [] /\
  ui_ticks (log (run (S total))) =
    ui_ticks (log s) ++ map Z.of_nat (seq 0 total) ++ [0].
Proof.
  destruct (run_while_playing total (le_n _)) as (H1 & H2 & H3 & (ms & H4) & _ & H6).
  assert (E : run (S total) = stop (run total)).
  { rewrite run_S. unfold advance. rewrite H4.
    apply callback_at_end. rewrite H2, total_totalTicks. lia. }
  assert (Hok : transport_ok (run total)).
  { split; [rewrite H2, total_totalTicks|rewrite H1; eauto].
    change (totalTicks CONFIG) with 400. lia. }
  destruct (stop_stops _ Hok) as (S1 & S2 & S3 & S4 & _).
  rewrite E, S1, S2, S3, S4, ui_ticks_app, H6.
  cbn [ui_ticks flat_map app]. rewrite <- app_assoc. auto.
Qed.

Lemma run_halts (n : nat) : (S total <= n)%nat -> run n = run (S total).
Proof.
  induction 1 as [|n Hn IH]; [reflexivity|].
  rewrite run_S, IH.
  destruct run_stops as (_ & _ & H & _).
  unfold advance. now rewrite H.
Qed.

End Part000Run.

(** C3, as the code has it.  From a stopped transport at tick 0, [play()]
    followed by [n] firings of the timer, [n] up to [totalTicks], leaves the
    clock running at tick [n] with one screen refresh for each of the ticks
    0 .. n-1; it is the firing after the last tick, number [totalTicks + 1],
    that stops the transport: not playing, tick 0, no interval live, with one
    more refresh, for tick 0, and nothing fires after that.  No refresh is for
    tick [totalTicks], and no firing takes the tick past [totalTicks]. *)
Theorem transport_runs_to_the_end (s : Part000.State) :
  isPlaying s = false -> currentTick s = 0 -> timers s = [] ->
  let total := Z.to_nat (Part000.totalTicks Part000.CONFIG) in
  (forall n, (n <= total)%nat ->
     isPlaying (Part000.run s n) = true /\
     currentTick (Part000.run s n) = Z.of_nat n /\
     ui_ticks (log (Part000.run s n)) = ui_ticks (log s) ++ map Z.of_nat (seq 0 n)) /\
  (isPlaying (Part000.run s (S total)) = false /\
   currentTick (Part000.run s (S total)) = 0 /\
   timers (Part000.run s (S total)) = [] /\
   ui_ticks (log (Part000.run s (S total))) =
     ui_ticks (log s) ++ map Z.of_nat (seq 0 total) ++ [0]) /\
  (forall n, (S total <= n)%nat -> Part000.run s n = Part000.run s (S total)) /\
  ~ In (Part000.totalTicks Part000.CONFIG) (map Z.of_nat (seq 0 total) ++ [0]) /\
  (forall s', currentTick (Part000.interval_callback s') <=
              Part000.totalTicks Part000.CONFIG).
Proof.
  intros H1 H2 H3 total. repeat split.
  - now apply run_while_playing.
  - now apply run_while_playing.
  - now apply run_while_playing.
  - now apply run_stops.
  - now apply run_stops.
  - now apply run_stops.
  - now apply run_stops.
  - intros n Hn. now apply run_halts.
  - intro Hin. apply in_app_or in Hin. destruct Hin as [Hin|[Hin|[]]].
    + apply in_map_iff in Hin. destruct Hin as (k & Hk & Hin).
      apply in_seq in Hin. subst total.
      rewrite <- total_totalTicks in Hk. unfold Part000.total in Hk. lia.
    + discriminate.
  - apply Part000Facts.callback_never_past_the_end.
Qed.

Lemma transport_runs_to_the_end_witness :
  let s := Part000.init (of_Z 1) in
  isPlaying (Part000.run s 401) = false /\ currentTick (Part000.run s 401) = 0 /\
  timers (Part000.run s 401) = [].
Proof.
  destruct (transport_runs_to_the_end (Part000.init (of_Z 1))
              eq_refl eq_refl eq_refl) as (_ & (H1 & H2 & H3 & _) & _).
  cbv zeta. auto.
Defined.

(** C3 as stated fails: after [play()] and exactly [totalTicks] = 400
    firings the transport is still playing, at tick 400. *)
Lemma transport_after_totalTicks_counterexample :
  let s := Nat.iter 400 Part000.advance (Part000.play (Part000.init (of_Z 1))) in
  isPlaying s = true /\ currentTick s = 400 /\ List.length (timers s) = 1%nat.
Proof. vm_compute. auto. Qed.

Lemma Part000_reachable_advance (s : Part000.State) :
  Part000.reachable s -> Part000.reachable (Part000.advance s).
Proof.
  intro H. unfold Part000.advance.
  destruct (timers s) as [|[h ms] t] eqn:E; [exact H|].
  eapply Part000.reach_step; [exact H|].
  apply (Part000.step_interval s h ms). rewrite E. now left.
Qed.

Lemma Part000_reachable_run (s : Part000.State) (n : nat) :
  Part000.reachable s -> Part000.reachable (Part000.run s n).
Proof.
  intro H. induction n as [|n IH].
  - eapply Part000.reach_step; [exact H|apply Part000.step_play].
  - apply Part000_reachable_advance in IH. exact IH.
Qed.

(** In part_000 [play()] does nothing while the clock is running, so the
    page never has two intervals live. *)
Lemma Part000_play_while_playing (s : Part000.State) :
  isPlaying s = true -> Part000.play s = s.
Proof. apply Part000Facts.play_when_playing. Qed.

Lemma Part000_one_advancer (s : Part000.State) :
  Part000.reachable s ->
  (List.length (timers s) <= 1)%nat /\
  List.length (timers (Part000.play (Part000.play s))) = 1%nat.
Proof.
  intro H. apply Part000Facts.reachable_ok in H. split.
  - destruct H as [_ H]. destruct (isPlaying s).
    + destruct H as (h & ms & _ & ->). simpl. lia.
    + rewrite H. simpl. lia.
  - apply Part000Facts.ok_play in H.
    assert (P : isPlaying (Part000.play s) = true).
    { unfold Part000.play. destruct (isPlaying s) eqn:E; [exact E|reflexivity]. }
    rewrite (Part000Facts.play_when_playing _ P).
    destruct H as [_ H]. rewrite P in H. destruct H as (h & ms & _ & ->).
    reflexivity.
Qed.

(** ** script.js, first document: the transport clock *)

Module Script1Facts.
Import Script1.

Implicit Types s : State.

Lemma s1_play_notes_and_step_eq s :
  play_notes_and_step s =
  mkState (songData s) (isPlaying s) (currentTick s + 1) (playbackInterval s)
    (selectedInst s) (speed s) (speedInput s) (repeatCheckbox s)
    (timers s) (nextTimer s)
    (log s ++
       map (fun n => Preview (inst n) (pitch n))
           (filter (at_tick (currentTick s)) (songData s)) ++
       [UIUpdate (currentTick s)]).
Proof.
  unfold play_notes_and_step. cbv zeta. unfold playPreviewSound, State.
  rewrite fold_previews. unfold updateTimeDisplay, emit, set_currentTick.
  simpl. now rewrite <- app_assoc.
Qed.

Lemma s1_callback_advancing s :
  currentTick s < TOTAL_TICKS -> interval_callback s = play_notes_and_step s.
Proof.
  intro H. unfold interval_callback.
  replace (currentTick s >=? TOTAL_TICKS) with false; [reflexivity|].
  symmetry. rewrite Z.geb_leb. apply Z.leb_gt. exact H.
Qed.

Lemma s1_callback_at_end s :
  TOTAL_TICKS <= currentTick s ->
  interval_callback s =
  if repeatCheckbox s then play_notes_and_step (set_currentTick 0 s) else stop s.
Proof.
  intro H. unfold interval_callback.
  replace (currentTick s >=? TOTAL_TICKS) with true; [reflexivity|].
  symmetry. rewrite Z.geb_leb. apply Z.leb_le. exact H.
Qed.

Lemma s1_stop_stops s :
  transport_ok s ->
  isPlaying (stop s) = false /\ currentTick (stop s) = 0 /\
  timers (stop s) = [] /\ log (stop s) = log s ++ [UIUpdate 0] /\
  songData (stop s) = songData s.
Proof.
  intros [_ H]. unfold stop, pause, updateTimeDisplay.
  destruct (isPlaying s).
  - destruct H as (h & ms & Hh & Ht). simpl. rewrite Hh.
    unfold clearInterval. simpl. rewrite Ht, clear_single. auto.
  - simpl. destruct (playbackInterval s); simpl; rewrite ?H; auto.
Qed.

Lemma s1_play_when_stopped s :
  isPlaying s = false ->
  play s =
  mkState (songData s) true (currentTick s) (Some (nextTimer s))
    (selectedInst s) (speed s) (speedInput s) (repeatCheckbox s)
    (timers s ++
       [(nextTimer s,
         div (div (of_Z 1000) (of_Z TICKS_PER_SECOND)) (speed s))])
    (Pos.succ (nextTimer s)) (log s).
Proof. intro H. unfold play. rewrite H. reflexivity. Qed.

Lemma s1_play_when_playing s : isPlaying s = true -> play s = s.
Proof. intro H. unfold play. now rewrite H. Qed.

Lemma s1_ok_init field : transport_ok (init field).
Proof. split; simpl; [unfold TOTAL_TICKS; lia|reflexivity]. Qed.

Lemma s1_ok_toggleNote t p s : transport_ok s -> transport_ok (toggleNote t p s).
Proof.
  unfold transport_ok, toggleNote.
  destruct (findIndex (at_cell t p) (songData s) >? -1); simpl; auto.
Qed.

Lemma s1_ok_play s : transport_ok s -> transport_ok (play s).
Proof.
  intros [Hb Ht]. destruct (isPlaying s) eqn:E.
  - rewrite (s1_play_when_playing s E). split; [exact Hb|now rewrite E].
  - rewrite (s1_play_when_stopped s E). split; simpl; [exact Hb|].
    rewrite Ht. simpl. eexists _, _. split; reflexivity.
Qed.

Lemma s1_ok_pause s : transport_ok s -> transport_ok (pause s).
Proof.
  intros [Hb Ht]. unfold pause. destruct (isPlaying s).
  - destruct Ht as (h & ms & Hh & Ht). simpl. rewrite Hh.
    split; simpl; [exact Hb|]. rewrite Ht. apply clear_single.
  - simpl. destruct (playbackInterval s); split; simpl; auto.
    now rewrite Ht.
Qed.

Lemma s1_ok_stop s : transport_ok s -> transport_ok (stop s).
Proof.
  intro H. destruct (s1_stop_stops s H) as (H1 & H2 & H3 & _).
  split; [rewrite H2; unfold TOTAL_TICKS; lia|now rewrite H1].
Qed.

Lemma s1_ok_callback s : transport_ok s -> transport_ok (interval_callback s).
Proof.
  intro H. destruct (Z_lt_le_dec (currentTick s) TOTAL_TICKS) as [L|L].
  - rewrite (s1_callback_advancing s L), s1_play_notes_and_step_eq.
    destruct H as [Hb Ht]. split; simpl in *; [lia|exact Ht].
  - rewrite (s1_callback_at_end s L). destruct (repeatCheckbox s).
    + rewrite s1_play_notes_and_step_eq. destruct H as [_ Ht].
      split; simpl; [unfold TOTAL_TICKS; lia|exact Ht].
    + now apply s1_ok_stop.
Qed.

Lemma s1_ok_seek v s :
  (0 <= v <= 100)%Q -> transport_ok s -> transport_ok (progressBar_oninput v s).
Proof.
  intros Hv [_ Ht].
  assert (P : 0 <= TOTAL_TICKS) by (unfold TOTAL_TICKS; lia).
  split; [exact (seek_in_range v TOTAL_TICKS P Hv)|exact Ht].
Qed.

Lemma s1_ok_speed x s : transport_ok s -> transport_ok (speedInput_onchange x s).
Proof.
  intro H. unfold speedInput_onchange. cbn [isPlaying set_speed].
  assert (H' : transport_ok (set_speed x s)) by exact H.
  destruct (isPlaying s); [apply s1_ok_play, s1_ok_pause|]; exact H'.
Qed.

Lemma s1_ok_step s s' : step s s' -> transport_ok s -> transport_ok s'.
Proof.
  intros Hs Hok. destruct Hs.
  - now apply s1_ok_toggleNote.
  - exact Hok.
  - now apply s1_ok_speed.
  - exact Hok.
  - now apply s1_ok_play.
  - now apply s1_ok_pause.
  - now apply s1_ok_stop.
  - now apply s1_ok_seek.
  - now apply s1_ok_callback.
  - exact Hok.
Qed.

Lemma s1_reachable_ok s : reachable s -> transport_ok s.
Proof.
  induction 1 as [field|s s' _ IH Hs]; [apply s1_ok_init|].
  exact (s1_ok_step s s' Hs IH).
Qed.

End Script1Facts.

Section Script1Run.
Import Script1 Script1Facts.

Variable s : State.
#[local] Abbreviation run1 := (Script1.run s).
Hypothesis stopped : isPlaying s = false.
Hypothesis at_start : currentTick s = 0.
Hypothesis idle : timers s = [].

Lemma Script1_total : Z.of_nat total = TOTAL_TICKS.
Proof. reflexivity. Qed.

Lemma Script1_run_S (n : nat) : run1 (S n) = advance (run1 n).
Proof. reflexivity. Qed.

Lemma Script1_run_while_playing (n : nat) :
  (n <= total)%nat ->
  isPlaying (run1 n) = true /\
  currentTick (run1 n) = Z.of_nat n /\
  playbackInterval (run1 n) = Some (nextTimer s) /\
  (exists ms, timers (run1 n) = [(nextTimer s, ms)]) /\
  repeatCheckbox (run1 n) = repeatCheckbox s /\
  ui_ticks (log (run1 n)) = ui_ticks (log s) ++ map Z.of_nat (seq 0 n).
Proof.
  induction n as [|n IH]; intro Hn.
  - unfold Script1.run. cbn [Nat.iter]. rewrite (s1_play_when_stopped s stopped).
    cbn [isPlaying currentTick playbackInterval timers repeatCheckbox log].
    rewrite idle, at_start, app_nil_r. simpl. repeat split; eauto.
  - destruct IH as (H1 & H2 & H3 & (ms & H4) & H5 & H6); [lia|].
    assert (E : run1 (S n) = interval_callback (run1 n)).
    { rewrite Script1_run_S. unfold advance. now rewrite H4. }
    assert (L : currentTick (run1 n) < TOTAL_TICKS).
    { rewrite H2, <- Script1_total. lia. }
    rewrite E, (s1_callback_advancing _ L), s1_play_notes_and_step_eq.
    cbn [isPlaying currentTick playbackInterval timers repeatCheckbox log].
    rewrite H1, H2, H3, H4, H5. repeat split; eauto; [lia|].
    rewrite !ui_ticks_app, ui_ticks_previews, H6, seq_S, map_app.
    cbn [ui_ticks flat_map map app Nat.add]. now rewrite <- app_assoc.
Qed.

(** With the repeat box unchecked the firing after the last tick stops the
    transport, as in part_000. *)
Lemma Script1_run_stops :
  repeatCheckbox s = false ->
  isPlaying (run1 (S total)) = false /\
  currentTick (run1 (S total)) = 0 /\
  timers (run1 (S total)) = [] /\
  ui_ticks (log (run1 (S total))) =
    ui_ticks (log s) ++ map Z.of_nat (seq 0 total) ++ [0].
Proof.
  intro Hr.
  destruct (Script1_run_while_playing total (le_n _))
    as (H1 & H2 & H3 & (ms & H4) & H5 & H6).
  assert (E : run1 (S total) = stop (run1 total)).
  { rewrite Script1_run_S. unfold advance. rewrite H4.
    rewrite s1_callback_at_end by (rewrite H2, Script1_total; lia).
    now rewrite H5, Hr. }
  assert (Hok : transport_ok (run1 total)).
  { split; [rewrite H2, Script1_total|rewrite H1; eauto].
    unfold TOTAL_TICKS. lia. }
  destruct (s1_stop_stops _ Hok) as (S1 & S2 & S3 & S4 & _).
  rewrite E, S1, S2, S3, S4, ui_ticks_app, H6.
  cbn [ui_ticks flat_map app]. rewrite <- app_assoc. auto.
Qed.

(** With the repeat box checked that firing starts the song again: it plays
    tick 0 and leaves the clock running at tick 1. *)
Lemma Script1_run_repeats :
  repeatCheckbox s = true ->
  isPlaying (run1 (S total)) = true /\ currentTick (run1 (S total)) = 1.
Proof.
  intro Hr.
  destruct (Script1_run_while_playing total (le_n _))
    as (H1 & H2 & H3 & (ms & H4) & H5 & H6).
  rewrite Script1_run_S. unfold advance. rewrite H4.
  rewrite s1_callback_at_end by (rewrite H2, Script1_total; lia).
  rewrite H5, Hr, s1_play_notes_and_step_eq.
  revert H1. generalize (Script1.run s total). intros st H1.
  split; [exact H1|reflexivity].
Qed.

End Script1Run.

(** In the first document of script.js the tick stays on the song as well,
    and its guarded [play()] keeps a single interval live. *)
Lemma Script1_tick_stays_on_the_song (s : Script1.State) :
  Script1.reachable s ->
  0 <= currentTick s <= Script1.TOTAL_TICKS /\
  (List.length (timers s) <= 1)%nat /\
  (isPlaying s = true -> Script1.play s = s).
Proof.
  intro H. apply Script1Facts.s1_reachable_ok in H. destruct H as [Hb Ht].
  split; [exact Hb|]. split; [|apply Script1Facts.s1_play_when_playing].
  destruct (isPlaying s).
  - destruct Ht as (h & ms & _ & ->). simpl. lia.
  - rewrite Ht. simpl. lia.
Qed.

Lemma Script1_reachable_run (s : Script1.State) (n : nat) :
  Script1.reachable s -> Script1.reachable (Script1.run s n).
Proof.
  intro H. induction n as [|n IH].
  - eapply Script1.reach_step; [exact H|apply Script1.step_play].
  - rewrite Script1_run_S. unfold Script1.advance.
    destruct (timers (Script1.run s n)) as [|[h ms] t] eqn:E; [exact IH|].
    eapply Script1.reach_step; [exact IH|].
    apply (Script1.step_interval _ h ms). rewrite E. now left.
Qed.

(** C5, as the code has it.  In every state the page can reach the tick
    lies between 0 and the song length, in part_000 and in the first document
    of script.js alike.  The clock can be running with the tick at the song
    length, and what the next firing of its interval does then depends on the
    script.  In part_000, and in script.js with the repeat box unchecked, the
    firing stops the clock and puts the tick back to 0, with no interval left.
    In script.js with the repeat box checked the firing plays tick 0 instead
    and leaves the clock running at tick 1 on the same interval. *)
Theorem tick_stays_on_the_song :
  (forall s : Part000.State,
     Part000.reachable s ->
     0 <= currentTick s <= Part000.totalTicks Part000.CONFIG /\
     (isPlaying s = true ->
      currentTick s = Part000.totalTicks Part000.CONFIG ->
      Part000.advance s = Part000.stop s /\
      isPlaying (Part000.advance s) = false /\
      currentTick (Part000.advance s) = 0 /\
      timers (Part000.advance s) = [])) /\
  (forall s : Script1.State,
     Script1.reachable s ->
     0 <= currentTick s <= Script1.TOTAL_TICKS /\
     (isPlaying s = true ->
      currentTick s = Script1.TOTAL_TICKS ->
      (repeatCheckbox s = false ->
       Script1.advance s = Script1.stop s /\
       isPlaying (Script1.advance s) = false /\
       currentTick (Script1.advance s) = 0 /\
       timers (Script1.advance s) = []) /\
      (repeatCheckbox s = true ->
       isPlaying (Script1.advance s) = true /\
       currentTick (Script1.advance s) = 1 /\
       timers (Script1.advance s) = timers s /\
       playbackInterval (Script1.advance s) = playbackInterval s /\
       ui_ticks (log (Script1.advance s)) = ui_ticks (log s) ++ [0]))).
Proof.
  split.
  - intros s H. apply Part000Facts.reachable_ok in H.
    split; [apply H|]. intros Hp Ht.
    assert (E : Part000.advance s = Part000.stop s).
    { unfold Part000.advance. destruct H as [_ H]. rewrite Hp in H.
      destruct H as (h & ms & _ & ->).
      apply Part000Facts.callback_at_end. lia. }
    rewrite E. split; [reflexivity|].
    destruct (Part000Facts.stop_stops s H) as (H1 & H2 & H3 & _). auto.
  - intros s H. apply Script1Facts.s1_reachable_ok in H.
    split; [apply H|]. intros Hp Ht.
    assert (A : Script1.advance s = Script1.interval_callback s).
    { unfold Script1.advance. destruct H as [_ H]. rewrite Hp in H.
      destruct H as (h & ms & _ & ->). reflexivity. }
    assert (C := Script1Facts.s1_callback_at_end s (Z.eq_le_incl _ _ (eq_sym Ht))).
    split; intro Hr; rewrite A, C, Hr.
    + split; [reflexivity|].
      destruct (Script1Facts.s1_stop_stops s H) as (H1 & H2 & H3 & _). auto.
    + rewrite Script1Facts.s1_play_notes_and_step_eq.
      cbn [isPlaying currentTick timers playbackInterval log set_currentTick].
      repeat split; try assumption.
      rewrite !ui_ticks_app, ui_ticks_previews. reflexivity.
Qed.

Lemma tick_stays_on_the_song_witness :
  Part000.reachable (Part000.run (Part000.init (of_Z 1)) 400) /\
  0 <= currentTick (Part000.run (Part000.init (of_Z 1)) 400) <= 400 /\
  isPlaying (Part000.advance (Part000.run (Part000.init (of_Z 1)) 400)) = false /\
  Script1.reachable (Script1.run (set_repeatCheckbox true (Script1.init (of_Z 1))) 200) /\
  currentTick (Script1.advance
                 (Script1.run (set_repeatCheckbox true (Script1.init (of_Z 1))) 200)) = 1.
Proof.
  assert (R : Part000.reachable (Part000.run (Part000.init (of_Z 1)) 400))
    by (apply Part000_reachable_run, Part000.reach_init).
  assert (R1 : Script1.reachable
                 (Script1.run (set_repeatCheckbox true (Script1.init (of_Z 1))) 200)).
  { apply Script1_reachable_run.
    eapply Script1.reach_step; [apply Script1.reach_init|apply Script1.step_repeat]. }
  destruct tick_stays_on_the_song as [P0 P1].
  destruct (P0 _ R) as [B S]. destruct (P1 _ R1) as [_ S1].
  split; [exact R|]. split; [exact B|].
  split; [apply S; vm_compute; reflexivity|]. split; [exact R1|].
  apply S1; vm_compute; reflexivity.
Defined.

(** C5 as stated fails in its second half: after [play()] and 400 firings
    the page is in a reachable state whose tick equals [totalTicks] while the
    clock is running. *)
Lemma running_at_totalTicks_counterexample :
  let s := Part000.run (Part000.init (of_Z 1)) 400 in
  Part000.reachable s /\
  currentTick s = Part000.totalTicks Part000.CONFIG /\ isPlaying s = true.
Proof.
  split; [apply Part000_reachable_run, Part000.reach_init|].
  vm_compute. auto.
Qed.

(** The same state of affairs after a seek to the end and [play()]. *)
Lemma running_at_totalTicks_after_seek :
  let s := Part000.play (Part000.progress_oninput 100 (Part000.init (of_Z 1))) in
  Part000.reachable s /\ currentTick s = 400 /\ isPlaying s = true.
Proof.
  cbv zeta. split; [|split; reflexivity].
  eapply Part000.reach_step; [|apply Part000.step_play].
  eapply Part000.reach_step; [apply Part000.reach_init|].
  apply Part000.step_seek. split; [discriminate|apply Qle_refl].
Qed.

(** In script.js a running clock at the end of the song does not always
    stop: with the repeat box checked, [play()] and 201 firings leave the
    clock running at tick 1. *)
Lemma Script1_running_past_the_end :
  let s := Script1.run (set_repeatCheckbox true (Script1.init (of_Z 1))) 200 in
  Script1.reachable s /\ isPlaying s = true /\
  currentTick s = Script1.TOTAL_TICKS /\
  isPlaying (Script1.advance s) = true /\ currentTick (Script1.advance s) = 1.
Proof.
  cbv zeta. split.
  - apply Script1_reachable_run.
    eapply Script1.reach_step; [apply Script1.reach_init|apply Script1.step_repeat].
  - vm_compute. auto.
Qed.

(** ** script.js, second document: [play()] without the guard *)

(** C4 at the input where the second document of script.js breaks it: two
    consecutive calls of its [play()] on the freshly loaded page leave two
    intervals live, [playbackInterval] names only the second, the second call
    has changed the state although the clock was running, and [pause()]
    afterwards clears one interval and leaves the other firing. *)
Theorem Script2_play_twice_two_advancers (field : num) :
  let s1 := Script2.play (Script2.init field) in
  let s2 := Script2.play s1 in
  isPlaying s1 = true /\ s2 <> s1 /\
  map fst (timers s2) = [1%positive; 2%positive] /\
  playbackInterval s2 = Some 2%positive /\
  isPlaying (Script2.pause s2) = false /\
  map fst (timers (Script2.pause s2)) = [1%positive].
Proof.
  cbv zeta. repeat split.
  intro E. apply (f_equal (fun s => List.length (timers s))) in E.
  discriminate E.
Qed.

(** ** The exporters *)

Lemma filter_map_comm {A B : Type} (g : A -> B) (f : B -> bool) (l : list A) :
  filter f (map g l) = map g (filter (fun x => f (g x)) l).
Proof.
  induction l as [|x l IH]; simpl; [reflexivity|].
  destruct (f (g x)); simpl; now rewrite IH.
Qed.

Lemma StronglySorted_map {A B : Type} (g : A -> B) (R : B -> B -> Prop)
  (l : list A) :
  StronglySorted (fun a b => R (g a) (g b)) l -> StronglySorted R (map g l).
Proof.
  induction 1 as [|x l Hl IH Hx]; simpl; constructor; [exact IH|].
  apply Forall_map. exact Hx.
Qed.

Lemma tuples_sorted (l : list (Note Z)) :
  StronglySorted Api.by_tick (map Api.tuple (sort tick l)).
Proof. apply StronglySorted_map. apply (sort_sorted tick). Qed.

Lemma tuples_stable (t : Z) (l : list (Note Z)) :
  filter (fun n : Z * Z * Z => fst (fst n) =? t) (map Api.tuple (sort tick l)) =
  map Api.tuple (filter (at_tick t) l).
Proof.
  rewrite filter_map_comm. f_equal. apply (sort_stable tick).
Qed.

Lemma getNotesAt_filter (m : Api.Music) (t : Z) :
  Api.getNotesAt m t =
  map (fun n : Z * Z * Z =>
         Api.mkEntry (index (Api.instruments m) (snd (fst n)))
                     (pow 2 ((IZR (snd n) - 12) / 12)))
      (filter (fun n : Z * Z * Z => fst (fst n) =? t) (Api.data m)).
Proof.
  unfold Api.getNotesAt.
  erewrite filter_ext; [apply map_ext|]; intros [[n0 n1] n2]; reflexivity.
Qed.

Lemma pitchRatio_pow (p : Z) : pow 2 ((IZR p - 12) / 12) = pitchRatio p.
Proof. unfold pow, pitchRatio, centerIndex. now rewrite minus_IZR. Qed.

Lemma pitchRatio_12 : pitchRatio 12 = 1%R.
Proof.
  unfold pitchRatio, centerIndex. change (12 - 12) with 0.
  replace (0 / 12)%R with 0%R by lra. apply Rpower_O. lra.
Qed.

Lemma pitchRatio_24 : pitchRatio 24 = 2%R.
Proof.
  unfold pitchRatio, centerIndex. change (24 - 12) with 12.
  replace (12 / 12)%R with 1%R by lra. apply Rpower_1. lra.
Qed.

Lemma pitchRatio_0 : pitchRatio 0 = (1 / 2)%R.
Proof.
  unfold pitchRatio, centerIndex. change (0 - 12) with (- (12)).
  rewrite opp_IZR.
  replace (Ropp 12 / 12)%R with (Ropp 1) by lra.
  rewrite Rpower_Ropp, Rpower_1; lra.
Qed.

Lemma Part000_exports_the_example (r : Q) (s : Part000.State) :
  songData s = [mkNote 0 12 0; mkNote 5 0 1] \/
  songData s = [mkNote 5 0 1; mkNote 0 12 0] ->
  speedInput s = of_Z 1 ->
  Part000.exports_the_example (snd (Part000.generateFile r s)).
Proof.
  intros Hs Hv. unfold Part000.exports_the_example, Part000.generateFile.
  cbn [snd Api.module Api.data Api.dataStr Api.speed songData set_songData].
  assert (E : sort tick (songData s) = [mkNote 0 12 0; mkNote 5 0 1])
    by (destruct Hs as [-> | ->]; reflexivity).
  rewrite E, Hv. repeat split.
  rewrite getNotesAt_filter. cbn. rewrite pitchRatio_pow, pitchRatio_12.
  reflexivity.
Qed.

(** The second document of script.js exports the same file. *)
Lemma Script2_generateApiFile_same (r : Q) (s : Script2.State) :
  Script2.generateApiFile r s = Part000.generateFile r s.
Proof. reflexivity. Qed.

(** The first document of script.js exports its notes in store order,
    unsorted, as [{ tick, sound, pitch }] records, and leaves the page as it
    was. *)
Lemma Script1_export_in_store_order (r : Q) (s : Script1.State) :
  map Script1.line_tick (Script1.lines (snd (Script1.generateBedrockScript r s))) =
  map tick (songData s) /\
  fst (Script1.generateBedrockScript r s) = s.
Proof.
  split; [|reflexivity]. unfold Script1.generateBedrockScript. simpl.
  rewrite map_map. reflexivity.
Qed.

(** C1, as the code has it.  For every store and every draw, the [data]
    array of the module that [generateFile] (and [generateApiFile]) exports
    holds one triple [(tick, inst, pitch)] per stored note, in ascending order
    of tick, the notes of one tick in the order the store had them.  For the
    store with the notes {tick 0, pitch 12, instrument 0} and {tick 5, pitch 0,
    instrument 1}, entered in either order, and speed 1.0, [data] is
    [[0,0,12],[5,1,0]] and [getNotesAt(0)] is the single entry with the sound
    id of instrument 0 and pitch 1.  [generateBedrockScript] writes one record
    per stored note, in the order of the store. *)
Theorem export_data_in_tick_order (r : Q) (s : Part000.State) :
  let m := Api.module (snd (Part000.generateFile r s)) in
  Permutation (Api.data m) (map Api.tuple (songData s)) /\
  StronglySorted Api.by_tick (Api.data m) /\
  (forall t, filter (fun n : Z * Z * Z => fst (fst n) =? t) (Api.data m) =
             map Api.tuple (filter (at_tick t) (songData s))) /\
  Api.instruments m = Api.sound_ids /\
  index Api.sound_ids 0 = Some "note.harp"%string /\
  Part000.exports_the_example (snd (Part000.generateFile r Part000.two_notes)) /\
  Part000.exports_the_example
    (snd (Part000.generateFile r Part000.two_notes_reversed)) /\
  Script2.generateApiFile r s = Part000.generateFile r s /\
  (forall s1 : Script1.State,
     map Script1.line_tick
         (Script1.lines (snd (Script1.generateBedrockScript r s1))) =
     map tick (songData s1)).
Proof.
  cbv zeta. unfold Part000.generateFile at 1 2 3 4.
  cbn [snd Api.module Api.data Api.instruments songData set_songData].
  split; [|split; [|split; [|split; [|split; [|split; [|split; [|split]]]]]]].
  - apply Permutation_map, sort_perm.
  - apply tuples_sorted.
  - intro t. apply tuples_stable.
  - reflexivity.
  - reflexivity.
  - apply Part000_exports_the_example; [left|]; reflexivity.
  - apply Part000_exports_the_example; [right|]; reflexivity.
  - reflexivity.
  - intro s1. apply Script1_export_in_store_order.
Qed.

(** C1 as stated fails for [generateBedrockScript]: with a note clicked at
    tick 5 and then one at tick 0, the exported notes come at ticks 5, 0. *)
Lemma export_in_store_order_counterexample :
  let s := Script1.toggleNote 0 12 (Script1.toggleNote 5 0 (Script1.init (of_Z 1))) in
  Script1.reachable s /\
  map Script1.line_tick
      (Script1.lines (snd (Script1.generateBedrockScript (1 # 2) s))) = [5; 0].
Proof.
  cbv zeta. split; [|reflexivity].
  repeat (eapply Script1.reach_step;
          [|apply Script1.step_toggle; unfold Script1.TOTAL_TICKS,
              Script1.NOTES_COUNT; lia]).
  apply Script1.reach_init.
Qed.

(** C6, as the code has it.  With [Math.random()] anywhere in [0, 1):
    [generateFile] of part_000 and [generateApiFile] of script.js draw an
    identifier between 100 and 999, [generateBedrockScript] of script.js
    draws one between 1 and 1000, and each suggests the file name
    [music<id>.js]. *)
Theorem export_identifier_range (r : Q) :
  (0 <= r < 1)%Q ->
  (forall s : Part000.State,
     let f := snd (Part000.generateFile r s) in
     100 <= Api.id (Api.module f) <= 999 /\
     Api.filename f = ("music" ++ show (Api.id (Api.module f)) ++ ".js")%string) /\
  (forall s : Script2.State,
     let f := snd (Script2.generateApiFile r s) in
     100 <= Api.id (Api.module f) <= 999 /\
     Api.filename f = ("music" ++ show (Api.id (Api.module f)) ++ ".js")%string) /\
  (forall s : Script1.State,
     let f := snd (Script1.generateBedrockScript r s) in
     1 <= Script1.SONG_ID f <= 1000 /\
     Script1.fileName f = ("music" ++ show (Script1.SONG_ID f) ++ ".js")%string).
Proof.
  intro Hr.
  assert (A := draw_in_range r 900 100 eq_refl Hr).
  assert (B := draw_in_range r 1000 1 eq_refl Hr).
  repeat split; simpl; try apply A; try apply B; lia.
Qed.

Lemma export_identifier_range_witness :
  (0 <= 1 # 2 < 1)%Q /\
  Api.id (Api.module (snd (Part000.generateFile (1 # 2) (Part000.init (of_Z 1))))) = 550 /\
  Api.filename (snd (Part000.generateFile (1 # 2) (Part000.init (of_Z 1)))) =
    "music550.js"%string /\
  Script1.SONG_ID (snd (Script1.generateBedrockScript (1 # 2) (Script1.init (of_Z 1)))) = 501.
Proof.
  assert (H : (0 <= 1 # 2 < 1)%Q) by (split; [discriminate|reflexivity]).
  destruct (export_identifier_range (1 # 2) H) as (P & _ & _).
  destruct (P (Part000.init (of_Z 1))) as [_ E].
  split; [exact H|]. split; [reflexivity|]. split; [exact E|reflexivity].
Defined.

(** C6 as stated fails for [generateBedrockScript]: when [Math.random()]
    returns 0 the identifier is 1 and the file is music1.js. *)
Lemma export_identifier_counterexample :
  let f := snd (Script1.generateBedrockScript 0 (Script1.init (of_Z 1))) in
  Script1.SONG_ID f = 1 /\ Script1.fileName f = "music1.js"%string /\
  ~ 100 <= Script1.SONG_ID f <= 999.
Proof. cbv zeta. repeat split. simpl. lia. Qed.

(** C7, as the code has it.  [generateFile] leaves the transport, the
    selection, the speed field, the timers and the log as they were and keeps
    the same notes in the store, but it sorts the store's array by tick: the
    order of insertion survives only among the notes of one tick, and a store
    already in tick order is left exactly as it was. *)
Theorem export_sorts_the_store (r : Q) (s : Part000.State) :
  let s' := fst (Part000.generateFile r s) in
  (isPlaying s' = isPlaying s /\ currentTick s' = currentTick s /\
   playbackInterval s' = playbackInterval s /\
   selectedInst s' = selectedInst s /\ speedInput s' = speedInput s /\
   timers s' = timers s /\ nextTimer s' = nextTimer s /\ log s' = log s) /\
  Permutation (songData s') (songData s) /\
  StronglySorted (by_key tick) (songData s') /\
  (forall t, filter (at_tick t) (songData s') = filter (at_tick t) (songData s)) /\
  (StronglySorted (by_key tick) (songData s) -> s' = s).
Proof.
  cbv zeta. unfold Part000.generateFile. cbn [fst].
  split; [repeat split|]. split; [|split; [|split]].
  - apply sort_perm.
  - apply sort_sorted.
  - intro t. apply (sort_stable tick).
  - intro H. unfold set_songData. rewrite (sort_sorted_id tick _ H).
    destruct s; reflexivity.
Qed.

Lemma export_sorts_the_store_witness :
  StronglySorted (by_key tick) (songData Part000.two_notes) /\
  fst (Part000.generateFile (1 # 2) Part000.two_notes) = Part000.two_notes.
Proof.
  assert (H : StronglySorted (by_key tick) (songData Part000.two_notes)).
  { repeat constructor. unfold by_key. simpl. lia. }
  split; [exact H|].
  apply (export_sorts_the_store (1 # 2) Part000.two_notes). exact H.
Defined.

(** C7 as stated fails: the page is clicked into the store [[{5,0,1},
    {0,12,0}]], a reachable state, and after the export the array is
    [[{0,12,0}, {5,0,1}]]: the order of insertion is gone. *)
Lemma export_sorts_the_store_counterexample :
  let s := Part000.two_notes_reversed in
  Part000.reachable s /\
  songData s = [mkNote 5 0 1; mkNote 0 12 0] /\
  songData (fst (Part000.generateFile (1 # 2) s)) = [mkNote 0 12 0; mkNote 5 0 1] /\
  fst (Part000.generateFile (1 # 2) s) <> s.
Proof.
  cbv zeta. split; [|repeat split].
  - unfold Part000.two_notes_reversed.
    repeat (eapply Part000.reach_step;
            [|first [apply Part000.step_toggle; simpl; lia
                    |apply Part000.step_select]]).
    apply Part000.reach_init.
  - intro E. apply (f_equal songData) in E. discriminate E.
Qed.

(** ** The speed and the period *)

Ltac float_lia :=
  unfold fexp, emin, prec, emax in *;
  change IntDef.Z.max with Z.max in *; change IntDef.Z.min with Z.min in *;
  lia.

(** The number of binary digits of a mantissa. *)
Lemma digits2_pos_bounds (p : positive) :
  2 ^ (Zpos (digits2_pos p) - 1) <= Zpos p < 2 ^ Zpos (digits2_pos p).
Proof.
  induction p as [p IH|p IH|]; cbn [digits2_pos].
  - rewrite Pos2Z.inj_succ.
    replace (Z.succ (Zpos (digits2_pos p)) - 1)
      with (Z.succ (Zpos (digits2_pos p) - 1)) by lia.
    rewrite !Z.pow_succ_r by lia. lia.
  - rewrite Pos2Z.inj_succ.
    replace (Z.succ (Zpos (digits2_pos p)) - 1)
      with (Z.succ (Zpos (digits2_pos p) - 1)) by lia.
    rewrite !Z.pow_succ_r by lia. lia.
  - simpl. lia.
Qed.

Lemma iter_pos_shift {A : Type} (f : A -> A) (P : Z -> A -> Prop) :
  (forall k x, 0 <= k -> P (k + 1) x -> P k (f x)) ->
  forall n k x, 0 <= k -> P (k + Zpos n) x -> P k (iter_pos f n x).
Proof.
  intros Hf. induction n as [n IH|n IH|]; intros k x Hk H; cbn [iter_pos].
  - apply IH; [lia|]. apply IH; [lia|]. apply Hf; [lia|].
    replace (k + Zpos n + Zpos n + 1) with (k + Zpos n~1) by lia. exact H.
  - apply IH; [lia|]. apply IH; [lia|].
    replace (k + Zpos n + Zpos n) with (k + Zpos n~0) by lia. exact H.
  - now apply Hf.
Qed.

(** One step of the right shift of the rounding halves the mantissa. *)
Lemma shr_1_halves (k : Z) (mrs : shr_record) :
  0 <= k -> 2 ^ (k + 1) <= shr_m mrs -> 2 ^ k <= shr_m (shr_1 mrs).
Proof.
  intros Hk. rewrite Z.pow_add_r by lia. change (2 ^ 1) with 2.
  assert (0 < 2 ^ k) by (apply Z.pow_pos_nonneg; lia).
  destruct mrs as [[|[p|p|]|p] r s]; cbn [shr_m shr_1]; lia.
Qed.

Lemma shr_m_of_loc (m : Z) (l : location) : shr_m (shr_record_of_loc m l) = m.
Proof. destruct l as [|[]]; reflexivity. Qed.

Lemma round_nearest_even_ge (m : Z) (l : location) : m <= round_nearest_even m l.
Proof.
  destruct l as [|[]]; cbn [round_nearest_even]; try destruct (Z.even m); lia.
Qed.

(** The shift to the exponent of the format keeps a mantissa whose exponent
    is not below the least one positive. *)
Lemma shr_fexp_positive (m e : Z) (l : location) :
  0 < m -> emin prec emax <= e ->
  0 < shr_m (fst (shr_fexp prec emax m e l)) /\
  emin prec emax <= snd (shr_fexp prec emax m e l).
Proof.
  intros Hm He. unfold shr_fexp, shr.
  destruct m as [|p|p]; try lia. cbn [Zdigits2].
  pose proof (digits2_pos_bounds p) as [D _].
  remember (fexp prec emax (Zpos (digits2_pos p) + e) - e) as n eqn:En.
  assert (Hn : n <= Zpos (digits2_pos p) - 1) by (subst n; float_lia).
  destruct n as [|n|n]; cbn [fst snd]; rewrite ?shr_m_of_loc; try (split; lia).
  split; [|lia].
  assert (H1 : 2 ^ 0 <= shr_m (iter_pos shr_1 n (shr_record_of_loc (Zpos p) l))).
  { apply (iter_pos_shift shr_1 (fun k mrs => 2 ^ k <= shr_m mrs)).
    - intros k x Hk. now apply shr_1_halves.
    - lia.
    - rewrite shr_m_of_loc, Z.add_0_l.
      eapply Z.le_trans; [|exact D]. apply Z.pow_le_mono_r; lia. }
  simpl in H1. lia.
Qed.

(** Rounding such a mantissa gives a finite number or an infinity of the
    given sign: never a zero, never [NaN]. *)
Lemma binary_round_aux_positive (sx : bool) (m e : Z) (l : location) :
  0 < m -> emin prec emax <= e ->
  (exists m' e', binary_round_aux prec emax sx m e l = S754_finite sx m' e') \/
  binary_round_aux prec emax sx m e l = S754_infinity sx.
Proof.
  intros Hm He. unfold binary_round_aux.
  destruct (shr_fexp_positive m e l Hm He) as [H1 H2].
  destruct (shr_fexp prec emax m e l) as [mrs' e'] eqn:E1. cbn [fst snd] in H1, H2.
  assert (Hr : 0 < round_nearest_even (shr_m mrs') (loc_of_shr_record mrs')).
  { pose proof (round_nearest_even_ge (shr_m mrs') (loc_of_shr_record mrs')). lia. }
  destruct (shr_fexp_positive _ e' loc_Exact Hr H2) as [H3 _].
  destruct (shr_fexp prec emax _ e' loc_Exact) as [mrs'' e''] eqn:E2.
  cbn [fst] in H3.
  destruct (shr_m mrs'') as [|q|q]; try lia.
  destruct (e'' <=? emax - prec); eauto.
Qed.

(** The integer quotient the division rounds is positive when the dividend
    has a full mantissa and an exponent that is not too small. *)
Lemma div_core_positive (m1 : positive) (e1 : Z) (m2 : positive) (e2 : Z) :
  Zpos (digits2_pos m1) = prec -> emin prec emax + (emax - prec) < e1 ->
  is_double (S754_finite false m2 e2) = true ->
  let '(q, e, _) := SFdiv_core_binary prec emax (Zpos m1) e1 (Zpos m2) e2 in
  0 < q /\ emin prec emax <= e.
Proof.
  intros Hd1 He1 V. unfold is_double, valid_binary, bounded, canonical_mantissa in V.
  apply andb_prop in V. destruct V as [C B].
  apply Z.eqb_eq in C. apply Z.leb_le in B.
  pose proof (digits2_pos_bounds m2) as [_ D2].
  pose proof (digits2_pos_bounds m1) as [D1 _]. rewrite Hd1 in D1.
  assert (Hd2 : Zpos (digits2_pos m2) <= prec) by float_lia.
  unfold SFdiv_core_binary. cbn [Zdigits2].
  set (e := Z.min _ _).
  assert (Hs : 1 <= e1 - e2 - e /\ emin prec emax <= e) by (subst e; float_lia).
  destruct Hs as [Hs Hm].
  destruct (e1 - e2 - e) as [|s|s] eqn:Es; try lia.
  rewrite Z.shiftl_mul_pow2 by lia.
  assert (L : Zpos m2 <= Zpos m1 * 2 ^ Zpos s).
  { assert (2 ^ 1 <= 2 ^ Zpos s) by (apply Z.pow_le_mono_r; lia).
    assert (2 ^ Zpos (digits2_pos m2) <= 2 ^ prec) by (apply Z.pow_le_mono_r; lia).
    change (2 ^ prec) with (2 * 2 ^ (prec - 1)) in *. change (2 ^ 1) with 2 in *.
    nia. }
  pose proof (Z.div_str_pos _ _ (conj (Pos2Z.is_pos m2) L)) as Q.
  unfold Z.div in Q.
  destruct (Z.div_eucl (Zpos m1 * 2 ^ Zpos s) (Zpos m2)) as [q r].
  split; [exact Q|exact Hm].
Qed.

(** [1000 / CONFIG.ticksPerSecond] is exactly 50, and so is 50 / 1.0. *)
Lemma Part000_base_period :
  div (of_Z 1000) (of_Z (Part000.ticksPerSecond Part000.CONFIG)) = of_Z 50 /\
  div (of_Z 50) (of_Z 1) = of_Z 50.
Proof. split; vm_compute; reflexivity. Qed.

(** The quotient of 50 by a finite double has the sign of the divisor; it is
    finite or, when it overflows, an infinity, and it is never a zero. *)
Lemma fifty_div_finite (sg : bool) (m : positive) (e : Z) :
  is_double (S754_finite sg m e) = true ->
  (exists m' e', div (of_Z 50) (S754_finite sg m e) = S754_finite sg m' e') \/
  div (of_Z 50) (S754_finite sg m e) = S754_infinity sg.
Proof.
  intro V. change (of_Z 50) with (S754_finite false 7036874417766400 (-47)).
  unfold div, SFdiv.
  assert (V' : is_double (S754_finite false m e) = true) by exact V.
  pose proof (div_core_positive 7036874417766400 (-47) m e) as H.
  destruct (SFdiv_core_binary prec emax _ _ _ _) as [[q e'] l].
  destruct H as [Hq He]; [now vm_compute|now vm_compute|exact V'|].
  change (xorb false sg) with sg.
  now apply binary_round_aux_positive.
Qed.

(** C8, as the code has it.  [play()] of part_000 schedules its interval
    with the period (1000 / ticksPerSecond) / speed, computed in doubles, where
    speed is 1.0 when the speed field holds no number ([NaN]) or a zero of
    either sign, and the number in the field otherwise.  The period is 50 for
    [NaN] and the zeros.  For a finite number other than zero it is the
    rounded quotient of 50 by that number: positive for a positive number, and
    then finite or, when the quotient overflows, [Infinity]; negative, finite
    or minus [Infinity], for a negative number, which is not replaced.  For an
    infinite speed it is a zero. *)
Theorem play_period (s : Part000.State) :
  isPlaying s = false ->
  is_double (speedInput s) = true ->
  exists ms,
    timers (Part000.play s) = timers s ++ [(nextTimer s, ms)] /\
    ms = div (div (of_Z 1000) (of_Z (Part000.ticksPerSecond Part000.CONFIG)))
             (or_default (speedInput s) (of_Z 1)) /\
    (speedInput s = NaN -> ms = of_Z 50 /\ positive_finite ms) /\
    (forall sg, speedInput s = S754_zero sg -> ms = of_Z 50 /\ positive_finite ms) /\
    (forall m e, speedInput s = S754_finite false m e ->
       ms = div (of_Z 50) (speedInput s) /\
       (positive_finite ms \/ ms = Infinity)) /\
    (forall m e, speedInput s = S754_finite true m e ->
       ms = div (of_Z 50) (speedInput s) /\
       ((exists m' e', ms = S754_finite true m' e') \/ ms = S754_infinity true) /\
       ~ positive_finite ms) /\
    (forall sg, speedInput s = S754_infinity sg ->
       ms = S754_zero sg /\ ~ positive_finite ms).
Proof.
  intros H V. eexists. rewrite (Part000Facts.play_when_stopped s H).
  cbn [timers]. split; [reflexivity|]. split; [reflexivity|].
  destruct Part000_base_period as [B1 B2]. rewrite B1.
  split; [|split; [|split; [|split]]].
  - intros ->. cbn [NaN or_default]. rewrite B2. now split.
  - intros sg ->. cbn [or_default]. rewrite B2. now split.
  - intros m e E. rewrite E in V |- *. cbn [or_default].
    split; [reflexivity|].
    destruct (fifty_div_finite false m e V) as [(m' & e' & ->) | ->].
    + left. exact I.
    + right. reflexivity.
  - intros m e E. rewrite E in V |- *. cbn [or_default].
    split; [reflexivity|].
    destruct (fifty_div_finite true m e V) as [(m' & e' & ->) | ->].
    + split; [left; eauto|]. intros [].
    + split; [now right|]. intros [].
  - intros sg ->. cbn [or_default]. split; [reflexivity|]. intros [].
Qed.

Lemma play_period_witness :
  isPlaying (Part000.init (of_Z 2)) = false /\
  is_double (speedInput (Part000.init (of_Z 2))) = true /\
  timers (Part000.play (Part000.init (of_Z 2))) = [(1%positive, of_Z 25)].
Proof.
  split; [reflexivity|]. split; [vm_compute; reflexivity|].
  destruct (play_period (Part000.init (of_Z 2)) eq_refl eq_refl) as (ms & E & D & _).
  rewrite E, D. vm_compute. reflexivity.
Defined.

(** C8 as stated fails on a negative speed: with -2 in the speed field
    [play()] schedules its interval with the period 50 / -2 = -25, which is
    negative. *)
Lemma negative_speed_counterexample :
  is_double (of_Z (-2)) = true /\
  timers (Part000.play (Part000.init (of_Z (-2)))) = [(1%positive, of_Z (-25))] /\
  of_Z (-25) = S754_finite true 7036874417766400 (-48) /\
  ~ positive_finite (of_Z (-25)).
Proof.
  split; [vm_compute; reflexivity|]. split; [vm_compute; reflexivity|].
  split; [vm_compute; reflexivity|]. intro H. vm_compute in H. exact H.
Qed.

(** Nor is the period finite for every positive speed: with 2^-1030 in the
    speed field, a positive double, the quotient overflows and [play()]
    schedules its interval with the period [Infinity]. *)
Lemma Part000_tiny_speed_infinite_period :
  is_double (pow2 (-1030)) = true /\ positive_finite (pow2 (-1030)) /\
  timers (Part000.play (Part000.init (pow2 (-1030)))) = [(1%positive, Infinity)] /\
  ~ positive_finite Infinity.
Proof.
  split; [vm_compute; reflexivity|]. split; [vm_compute; exact I|].
  split; [vm_compute; reflexivity|]. intros [].
Qed.

(** The quotient is the double nearest to the exact one: with 3 in the speed
    field the period is 16.666666666666668, the double
    4691249611844267 * 2^-48. *)
Lemma Part000_period_is_rounded :
  timers (Part000.play (Part000.init (of_Z 3))) =
    [(1%positive, S754_finite false 4691249611844267 (-48))].
Proof. vm_compute. reflexivity. Qed.

(** The first document of script.js keeps whatever [parseFloat] returned:
    its [play()] divides by the variable [speed] as the listener set it, so
    [NaN] gives the period [NaN] and zero an infinite period. *)
Lemma Script1_speed_not_normalised (x : num) (s : Script1.State) :
  isPlaying s = false ->
  timers (Script1.play (Script1.speedInput_onchange x s)) =
  timers s ++
    [(nextTimer s, div (div (of_Z 1000) (of_Z Script1.TICKS_PER_SECOND)) x)].
Proof.
  intro H. unfold Script1.speedInput_onchange. cbn [isPlaying set_speed].
  rewrite H. unfold Script1.play. cbn [isPlaying set_speed]. rewrite H.
  reflexivity.
Qed.

Lemma Script1_speed_NaN_and_zero :
  timers (Script1.play (Script1.speedInput_onchange NaN (Script1.init NaN))) =
    [(1%positive, NaN)] /\
  timers (Script1.play (Script1.speedInput_onchange (of_Z 0) (Script1.init NaN))) =
    [(1%positive, Infinity)].
Proof. split; vm_compute; reflexivity. Qed.

(** ** The pitch ratio *)

(** The first document of script.js computes the same ratio and prints it
    with two decimals. *)
Lemma Script1_pitch_rounded (r : Q) (s : Script1.State) :
  map Script1.line_pitch (Script1.lines (snd (Script1.generateBedrockScript r s))) =
  map (fun n => toFixed2 (pitchRatio (pitch n))) (songData s).
Proof.
  unfold Script1.generateBedrockScript. simpl. rewrite map_map.
  apply map_ext. intro n. simpl. now rewrite pitchRatio_pow.
Qed.

Lemma toFixed2_of_the_three :
  toFixed2 (pitchRatio 12) = 100 /\ toFixed2 (pitchRatio 0) = 50 /\
  toFixed2 (pitchRatio 24) = 200.
Proof.
  rewrite pitchRatio_12, pitchRatio_0, pitchRatio_24. unfold toFixed2.
  repeat split; apply Zfloor_eq; simpl; lra.
Qed.

Lemma pitchRatio_positive (p : Z) : (0 < pitchRatio p)%R.
Proof. unfold pitchRatio, Rpower. apply exp_pos. Qed.

(** Twelve steps make an octave: the twelfth power of twice the ratio of
    pitch [p] is [2^p]. *)
Lemma pitchRatio_twelfth_power (p : nat) :
  ((2 * pitchRatio (Z.of_nat p)) ^ 12 = 2 ^ p)%R.
Proof.
  unfold pitchRatio, centerIndex.
  rewrite <- (Rpower_1 2) at 1 by lra.
  rewrite <- Rpower_plus, minus_IZR, <- INR_IZR_INZ.
  replace (1 + (INR p - 12) / 12)%R with (INR p / 12)%R by lra.
  rewrite <- Rpower_pow by apply exp_pos.
  rewrite Rpower_mult.
  replace (INR p / 12 * INR 12)%R with (INR p).
  - apply Rpower_pow. lra.
  - replace (INR 12) with 12%R by (simpl; lra). lra.
Qed.

(** [toFixed(2)] prints the hundredth nearest to its argument. *)
Lemma toFixed2_nearest (x : R) :
  (IZR (toFixed2 x) - / 2 <= x * 100 < IZR (toFixed2 x) + / 2)%R.
Proof. unfold toFixed2. pose proof (Zfloor_bound (x * 100 + / 2)). lra. Qed.

(** The two decimals of a ratio follow from a comparison of integers. *)
Lemma toFixed2_pitchRatio (p : nat) (n : Z) :
  0 < 2 * n - 1 ->
  (2 * n - 1) ^ 12 < 2 ^ Z.of_nat p * 100 ^ 12 < (2 * n + 1) ^ 12 ->
  toFixed2 (pitchRatio (Z.of_nat p)) = n.
Proof.
  intros Hn [L U]. unfold toFixed2. apply Zfloor_eq.
  pose proof (pitchRatio_twelfth_power p) as E.
  pose proof (pitchRatio_positive (Z.of_nat p)) as P.
  set (x := pitchRatio (Z.of_nat p)) in *.
  change 12 with (Z.of_nat 12) in L, U.
  apply IZR_lt in L, U.
  rewrite mult_IZR, <- !pow_IZR in L, U.
  rewrite <- E, <- Rpow_mult_distr in L, U.
  assert (A : (IZR (2 * n - 1) <= 2 * x * IZR 100)%R).
  { destruct (Rle_or_lt (IZR (2 * n - 1)) (2 * x * IZR 100)) as [H|H]; [exact H|].
    exfalso. apply (Rlt_irrefl (IZR (2 * n - 1) ^ 12)).
    eapply Rlt_le_trans; [exact L|]. apply pow_incr. split; [|lra].
    apply Rmult_le_pos; lra. }
  assert (B : (2 * x * IZR 100 < IZR (2 * n + 1))%R).
  { destruct (Rle_or_lt (IZR (2 * n + 1)) (2 * x * IZR 100)) as [H|H]; [|exact H].
    exfalso. apply (Rlt_irrefl (IZR (2 * n + 1) ^ 12)).
    eapply Rle_lt_trans; [|exact U]. apply pow_incr. split; [|exact H].
    apply IZR_le. lia. }
  rewrite minus_IZR, mult_IZR in A. rewrite plus_IZR, mult_IZR in B.
  split; lra.
Qed.

(** What [toFixed(2)] prints for the 25 pitches of the grid, in hundredths. *)
Lemma toFixed2_pitchRatio_table :
  map (fun p => toFixed2 (pitchRatio p)) (upto Script1.NOTES_COUNT) =
  [50; 53; 56; 59; 63; 67; 71; 75; 79; 84; 89; 94; 100;
   106; 112; 119; 126; 133; 141; 150; 159; 168; 178; 189; 200].
Proof.
  unfold upto. change (Z.to_nat Script1.NOTES_COUNT) with 25%nat. cbn [seq map].
  repeat (apply f_equal2;
          [apply toFixed2_pitchRatio; [lia|split; vm_compute; reflexivity]|]).
  reflexivity.
Qed.

Lemma pitchRatio_13_not_106 : (IZR 106 / 100 <> pitchRatio 13)%R.
Proof.
  intro H. pose proof (pitchRatio_twelfth_power 13) as E.
  change (Z.of_nat 13) with 13 in E. rewrite <- H in E.
  lra.
Qed.

(** C9, as the code has it.  The mapper [pitchRatio(p) = 2^((p - 12) / 12)]
    is 1 at 12, 1/2 at 0 and 2 at 24.  [getNotesAt] of the module part_000
    exports gives every entry it returns the pitch [pitchRatio] of the entry's
    pitch index (and the sound id its instrument index selects): the exact
    formula.  [generateBedrockScript] evaluates the same ratio for every note
    but writes it with [toFixed(2)]: the pitch it exports is the hundredth
    nearest to the ratio, 1.00, 0.50 and 2.00 at the three indices, and for
    the 25 pitches of the grid the values listed, 1.06 at index 13. *)
Theorem pitch_ratio_mapper :
  pitchRatio 12 = 1%R /\ pitchRatio 0 = (1 / 2)%R /\ pitchRatio 24 = 2%R /\
  (forall (m : Api.Music) (t : Z),
     Api.getNotesAt m t =
     map (fun n : Z * Z * Z =>
            Api.mkEntry (index (Api.instruments m) (snd (fst n)))
                        (pitchRatio (snd n)))
         (filter (fun n : Z * Z * Z => fst (fst n) =? t) (Api.data m))) /\
  (forall (r : Q) (s : Script1.State),
     map Script1.line_pitch
         (Script1.lines (snd (Script1.generateBedrockScript r s))) =
     map (fun n => toFixed2 (pitchRatio (pitch n))) (songData s)) /\
  (toFixed2 (pitchRatio 12) = 100 /\ toFixed2 (pitchRatio 0) = 50 /\
   toFixed2 (pitchRatio 24) = 200) /\
  (forall p : Z,
     (IZR (toFixed2 (pitchRatio p)) - / 2 <= pitchRatio p * 100
      < IZR (toFixed2 (pitchRatio p)) + / 2)%R) /\
  map (fun p => toFixed2 (pitchRatio p)) (upto Script1.NOTES_COUNT) =
  [50; 53; 56; 59; 63; 67; 71; 75; 79; 84; 89; 94; 100;
   106; 112; 119; 126; 133; 141; 150; 159; 168; 178; 189; 200].
Proof.
  split; [exact pitchRatio_12|]. split; [exact pitchRatio_0|].
  split; [exact pitchRatio_24|]. split; [|split; [|split; [|split]]].
  - intros m t. rewrite getNotesAt_filter. apply map_ext.
    intro n. now rewrite pitchRatio_pow.
  - apply Script1_pitch_rounded.
  - apply toFixed2_of_the_three.
  - intro p. apply toFixed2_nearest.
  - apply toFixed2_pitchRatio_table.
Qed.

(** C9 as stated fails for the script [generateBedrockScript] writes: a note
    at pitch index 13 is exported with the pitch 1.06, which is not the ratio
    2^(1/12) = 1.0594... the formula gives. *)
Lemma rounded_pitch_counterexample :
  let s := Script1.toggleNote 0 13 (Script1.init (of_Z 1)) in
  Script1.reachable s /\
  map Script1.line_pitch
      (Script1.lines (snd (Script1.generateBedrockScript 0 s))) = [106] /\
  (IZR 106 / 100 <> pitchRatio 13)%R.
Proof.
  cbv zeta. split; [|split].
  - eapply Script1.reach_step; [apply Script1.reach_init|].
    apply Script1.step_toggle; unfold Script1.TOTAL_TICKS, Script1.NOTES_COUNT; lia.
  - rewrite Script1_pitch_rounded.
    change (songData (Script1.toggleNote 0 13 (Script1.init (of_Z 1))))
      with [mkNote 0 13 "harp"%string].
    cbn [map pitch]. f_equal.
    apply (toFixed2_pitchRatio 13); [lia|split; vm_compute; reflexivity].
  - exact pitchRatio_13_not_106.
Qed.

(** * Further properties of the scripts *)

(** ** Loops *)

Lemma in_upto (n x : Z) : In x (upto n) <-> 0 <= x < n.
Proof.
  unfold upto. rewrite in_map_iff. split.
  - intros (k & <- & Hk). apply in_seq in Hk. lia.
  - intro H. exists (Z.to_nat x). split; [lia|]. apply in_seq. lia.
Qed.

Lemma NoDup_upto (n : Z) : NoDup (upto n).
Proof.
  unfold upto. apply Finite.Injective_map_NoDup; [|apply seq_NoDup].
  intros a b H. lia.
Qed.

Lemma length_upto (n : Z) : List.length (upto n) = Z.to_nat n.
Proof. unfold upto. now rewrite length_map, length_seq. Qed.

Lemma in_downto (hi x : Z) : In x (downto hi) <-> 0 <= x <= hi.
Proof.
  unfold downto. rewrite in_map_iff. split.
  - intros (k & <- & Hk). apply in_seq in Hk. lia.
  - intro H. exists (Z.to_nat (hi - x)). split; [lia|]. apply in_seq. lia.
Qed.

Lemma NoDup_downto (hi : Z) : NoDup (downto hi).
Proof.
  unfold downto. apply Finite.Injective_map_NoDup; [|apply seq_NoDup].
  intros a b H. lia.
Qed.

(** ** part_000: the clock texts *)

Lemma padStart_two_digits (r : Z) :
  0 <= r < 60 -> padStart 2 "0" (show r) = Part000.two_digits r.
Proof.
  intro H.
  assert (A : forallb (fun k => String.eqb (padStart 2 "0" (show k))
                                           (Part000.two_digits k))
                      (upto 60) = true) by (vm_compute; reflexivity).
  rewrite forallb_forall in A. apply String.eqb_eq, A, in_upto. exact H.
Qed.

(** [fmt] of a number of seconds: the minutes as they are, a colon, and the
    seconds of the minute in exactly two digits. *)
Theorem fmt_minutes_and_two_digit_seconds (s : Z) :
  0 <= s ->
  Part000.fmt s =
  (show (s / 60) ++ ":" ++ Part000.two_digits (s mod 60))%string /\
  String.length (Part000.two_digits (s mod 60)) = 2%nat.
Proof.
  intro H. split; [|reflexivity]. unfold Part000.fmt.
  rewrite Z.rem_mod_nonneg by lia.
  rewrite padStart_two_digits; [reflexivity|].
  apply Z.mod_pos_bound. lia.
Qed.

Lemma fmt_minutes_and_two_digit_seconds_witness :
  0 <= 75 /\ Part000.fmt 75 = "1:15"%string.
Proof.
  split; [lia|].
  destruct (fmt_minutes_and_two_digit_seconds 75 ltac:(lia)) as [E _].
  rewrite E. reflexivity.
Defined.

(** In every state the page can reach, the elapsed clock reads 0:SS with SS
    the whole seconds played, never more than 20, the total clock reads 0:20,
    the progress value lies between 0 and 100 and the playhead between the
    key column and the end of the grid. *)
Theorem display_in_every_reachable_state (s : Part000.State) :
  Part000.reachable s ->
  0 <= currentTick s / 20 <= 20 /\
  Part000.updateTime s =
    (("0:" ++ Part000.two_digits (currentTick s / 20))%string, "0:20"%string) /\
  (0 <= Part000.progress_value s <= 100)%Q /\
  40 <= Part000.playhead_left s <= 40 + 400 * 35.
Proof.
  intro H. apply Part000Facts.reachable_ok in H. destruct H as [[H0 H1] _].
  change (Part000.totalTicks Part000.CONFIG) with 400 in H1.
  assert (B : 0 <= currentTick s / 20 <= 20).
  { split; [apply Z.div_pos; lia|]. apply Z.div_le_upper_bound; lia. }
  split; [exact B|]. split; [|split].
  - unfold Part000.updateTime. cbv zeta.
    destruct (fmt_minutes_and_two_digit_seconds (currentTick s / 20)) as [E _];
      [lia|].
    rewrite E. rewrite Z.div_small by lia. rewrite Z.mod_small by lia.
    reflexivity.
  - unfold Part000.progress_value.
    change (Part000.totalTicks Part000.CONFIG) with 400.
    change (inject_Z 400) with 400%Q.
    assert (Q0 : (0 <= inject_Z (currentTick s))%Q)
      by (change 0%Q with (inject_Z 0); now rewrite <- Zle_Qle).
    assert (Q1 : (inject_Z (currentTick s) <= 400)%Q)
      by (change 400%Q with (inject_Z 400); now rewrite <- Zle_Qle).
    split.
    + apply Qmult_le_0_compat; [|discriminate].
      apply Qle_shift_div_l; [reflexivity|]. now rewrite Qmult_0_l.
    + setoid_replace 100%Q with (1 * 100)%Q at 2 by reflexivity.
      apply Qmult_le_compat_r; [|discriminate].
      apply Qle_shift_div_r; [reflexivity|]. now rewrite Qmult_1_l.
  - unfold Part000.playhead_left. lia.
Qed.

Lemma display_in_every_reachable_state_witness :
  Part000.reachable (Part000.run (Part000.init (of_Z 1)) 45) /\
  Part000.updateTime (Part000.run (Part000.init (of_Z 1)) 45) =
    ("0:02"%string, "0:20"%string).
Proof.
  assert (R : Part000.reachable (Part000.run (Part000.init (of_Z 1)) 45))
    by (apply Part000_reachable_run, Part000.reach_init).
  split; [exact R|].
  destruct (display_in_every_reachable_state _ R) as (_ & E & _).
  rewrite E. reflexivity.
Defined.

(** ** part_000: the grid *)

Lemma NoDup_flat_map_disjoint {A B : Type} (f : A -> list B) (l : list A) :
  NoDup l ->
  (forall x, In x l -> NoDup (f x)) ->
  (forall x y e, In x l -> In y l -> In e (f x) -> In e (f y) -> x = y) ->
  NoDup (flat_map f l).
Proof.
  induction 1 as [|x l Hx Hl IH]; intros Hf Hd; simpl; [constructor|].
  apply NoDup_app.
  - apply Hf. now left.
  - apply IH.
    + intros y Hy. apply Hf. now right.
    + intros y z e Hy Hz. apply Hd; now right.
  - intros e He Hin. apply in_flat_map in Hin. destruct Hin as (y & Hy & Hey).
    assert (x = y) by (apply (Hd x y e); auto; [now left|now right]).
    subst. contradiction.
Qed.

Lemma some_pair_inj (a b c d : Z) : Some (a, b) = Some (c, d) -> a = c /\ b = d.
Proof. intro H. injection H. auto. Qed.

Lemma in_renderGrid (e : Part000.Element) :
  In e Part000.renderGrid <->
  e = Part000.Playhead \/
  (exists p, 0 <= p < Part000.pitchRange Part000.CONFIG /\
     (e = Part000.KeyLabel p 1 (Part000.pitchRange Part000.CONFIG - p) \/
      exists t, 0 <= t < Part000.totalTicks Part000.CONFIG /\
        e = Part000.GridCell t p (Z.rem t 4 =? 0) (t + 2)
              (Part000.pitchRange Part000.CONFIG - p))).
Proof.
  unfold Part000.renderGrid. cbn [In]. rewrite in_flat_map. split.
  - intros [H|(p & Hp & H)]; [left; now symmetry|right].
    apply in_downto in Hp. exists p. split; [lia|].
    destruct H as [H|H]; [left; now symmetry|right].
    apply in_map_iff in H. destruct H as (t & <- & Ht).
    apply in_upto in Ht. exists t. auto.
  - intros [->|(p & Hp & H)]; [now left|right].
    exists p. split; [apply in_downto; lia|].
    destruct H as [->|(t & Ht & ->)]; [now left|right].
    apply in_map_iff. exists t. split; [reflexivity|now apply in_upto].
Qed.

Lemma NoDup_renderGrid : NoDup Part000.renderGrid.
Proof.
  unfold Part000.renderGrid. constructor.
  - intro H. apply in_flat_map in H. destruct H as (p & _ & [H|H]);
      [discriminate|].
    apply in_map_iff in H. destruct H as (t & H & _). discriminate.
  - apply NoDup_flat_map_disjoint; [apply NoDup_downto| |].
    + intros p _. constructor.
      * intro H. apply in_map_iff in H. destruct H as (t & H & _). discriminate.
      * apply Finite.Injective_map_NoDup; [|apply NoDup_upto].
        intros a b H. injection H as H _. exact H.
    + intros p q e _ _ [<-|Hp] [Hq|Hq].
      * now injection Hq.
      * apply in_map_iff in Hq. destruct Hq as (t & Hq & _). discriminate.
      * apply in_map_iff in Hp. destruct Hp as (t & <- & _). discriminate.
      * apply in_map_iff in Hp. destruct Hp as (t & <- & _).
        apply in_map_iff in Hq. destruct Hq as (u & Hq & _).
        now injection Hq.
Qed.

(** [renderGrid] builds exactly one clickable cell for every tick below
    [totalTicks] and every pitch below [pitchRange], and no other: the click
    handlers call [toggleNote] only with ticks and pitches on the grid. *)
Theorem grid_has_one_cell_per_tick_and_pitch :
  NoDup Part000.renderGrid /\
  forall t p b c r,
    In (Part000.GridCell t p b c r) Part000.renderGrid <->
    0 <= t < Part000.totalTicks Part000.CONFIG /\
    0 <= p < Part000.pitchRange Part000.CONFIG /\
    b = (Z.rem t 4 =? 0) /\ c = t + 2 /\
    r = Part000.pitchRange Part000.CONFIG - p.
Proof.
  split; [exact NoDup_renderGrid|]. intros t p b c r.
  rewrite in_renderGrid. split.
  - intros [H|(q & Hq & [H|(u & Hu & H)])]; try discriminate.
    injection H as -> -> -> -> ->. auto.
  - intros (Ht & Hp & -> & -> & ->). right. exists p. split; [exact Hp|].
    right. exists t. auto.
Qed.

(** The layout of the grid: key labels fill column 1 and cells the columns
    2 .. totalTicks + 1, in the rows 1 .. pitchRange with the highest pitch in
    row 1; no two elements share a position; the beat mark is on every
    fourth tick. *)
Theorem grid_layout (e : Part000.Element) (c r : Z) :
  In e Part000.renderGrid -> Part000.place e = Some (c, r) ->
  1 <= c <= Part000.totalTicks Part000.CONFIG + 1 /\
  1 <= r <= Part000.pitchRange Part000.CONFIG /\
  (forall e', In e' Part000.renderGrid -> Part000.place e' = Some (c, r) -> e' = e) /\
  match e with
  | Part000.Playhead => False
  | Part000.KeyLabel text _ _ =>
      c = 1 /\ text = Part000.pitchRange Part000.CONFIG - r
  | Part000.GridCell t p beat _ _ =>
      t = c - 2 /\ p = Part000.pitchRange Part000.CONFIG - r /\
      (beat = true <-> t mod 4 = 0)
  end.
Proof.
  intros He Hpl.
  assert (U : forall e1 e2 c0 r0,
             In e1 Part000.renderGrid -> In e2 Part000.renderGrid ->
             Part000.place e1 = Some (c0, r0) ->
             Part000.place e2 = Some (c0, r0) -> e2 = e1).
  { clear. intros e1 e2 c0 r0 H1 H2 P1 P2.
    apply in_renderGrid in H1. apply in_renderGrid in H2.
    destruct H1 as [->|(p & Hp & [->|(t & Ht & ->)])]; [discriminate| |];
      destruct H2 as [->|(q & Hq & [->|(u & Hu & ->)])]; try discriminate;
      cbn [Part000.place] in P1, P2;
      apply some_pair_inj in P1; destruct P1 as [<- <-];
      apply some_pair_inj in P2; destruct P2 as [E1 E2].
    - f_equal; lia.
    - exfalso. lia.
    - exfalso. lia.
    - assert (u = t) by lia. assert (q = p) by lia. subst. reflexivity. }
  assert (T : Part000.totalTicks Part000.CONFIG = 400) by reflexivity.
  assert (G : Part000.pitchRange Part000.CONFIG = 25) by reflexivity.
  split; [|split; [|split]]; try (intros e' He' Hp'; exact (U e e' c r He He' Hpl Hp')).
  all: apply in_renderGrid in He;
    destruct He as [->|(p & Hp & [->|(t & Ht & ->)])]; [discriminate| |];
    cbn [Part000.place] in Hpl; apply some_pair_inj in Hpl;
    destruct Hpl as [<- <-].
  - lia.
  - lia.
  - lia.
  - lia.
  - split; lia.
  - split; [lia|]. split; [lia|].
    rewrite Z.eqb_eq, Z.rem_mod_nonneg by lia. reflexivity.
Qed.

Lemma grid_layout_witness :
  In (Part000.GridCell 8 24 true 10 1) Part000.renderGrid /\
  forall e', In e' Part000.renderGrid -> Part000.place e' = Some (10, 1) ->
             e' = Part000.GridCell 8 24 true 10 1.
Proof.
  assert (H : In (Part000.GridCell 8 24 true 10 1) Part000.renderGrid).
  { apply grid_has_one_cell_per_tick_and_pitch. cbn. repeat split; lia. }
  split; [exact H|].
  apply (grid_layout (Part000.GridCell 8 24 true 10 1) 10 1 H eq_refl).
Defined.

(** ** part_000: what the store can hold *)

Lemma toggled_Forall {I : Type} (P : Note I -> Prop) (sel : I) (t p : Z)
  (l : list (Note I)) :
  Forall P l -> P (mkNote t p sel) -> Forall P (toggled sel t p l).
Proof.
  intros Hl Hn. destruct (occupied t p l) eqn:E.
  - destruct (toggled_present sel _ _ _ E) as (l1 & n & l2 & -> & _ & _ & ->).
    apply Forall_app in Hl. destruct Hl as [H1 H2].
    apply Forall_app. split; [exact H1|]. now inversion H2.
  - rewrite (toggled_absent sel _ _ _ E). apply Forall_app. split; [exact Hl|].
    now constructor.
Qed.

(** What one event can do to the array of notes: nothing, a toggle on the
    grid, or the sort of the export. *)
Lemma Part000_step_songData (s s' : Part000.State) :
  Part000.step s s' ->
  songData s' = songData s \/
  (exists t p, Part000.on_grid (mkNote t p (selectedInst s)) /\
               songData s' = toggled (selectedInst s) t p (songData s)) \/
  songData s' = sort tick (songData s).
Proof.
  intro H. destruct H.
  - right. left. exists t, p. split; [split; assumption|].
    apply Part000_toggleNote_songData.
  - now left.
  - now left.
  - left. unfold Part000.play. destruct (isPlaying s); reflexivity.
  - left. unfold Part000.pause. simpl. destruct (playbackInterval s); reflexivity.
  - left. unfold Part000.stop, Part000.pause. simpl.
    destruct (playbackInterval s); reflexivity.
  - left. unfold Part000.progress_oninput, Part000.play, Part000.pause.
    destruct (isPlaying s); simpl; [|reflexivity].
    destruct (playbackInterval s); reflexivity.
  - left. destruct (Z_lt_le_dec (currentTick s) (Part000.totalTicks Part000.CONFIG))
      as [L|L].
    + now rewrite (Part000Facts.callback_advancing s L).
    + rewrite (Part000Facts.callback_at_end s L).
      unfold Part000.stop, Part000.pause. simpl.
      destruct (playbackInterval s); reflexivity.
  - right. right. reflexivity.
Qed.

Lemma Part000_reachable_on_grid (s : Part000.State) :
  Part000.reachable s -> Forall Part000.on_grid (songData s).
Proof.
  induction 1 as [field|s s' _ IH Hs]; [constructor|].
  destruct (Part000_step_songData s s' Hs) as [E|[(t & p & Hn & E)|E]];
    rewrite E.
  - exact IH.
  - now apply toggled_Forall.
  - eapply Permutation_Forall; [symmetry; apply sort_perm|exact IH].
Qed.

(** Every note the store of a reachable state holds lies on the grid, no
    two notes share a cell, and so the store never holds more than
    [totalTicks * pitchRange] = 10000 notes. *)
Theorem store_stays_on_the_grid (s : Part000.State) :
  Part000.reachable s ->
  Forall Part000.on_grid (songData s) /\
  unique_cells (songData s) /\
  Z.of_nat (List.length (songData s)) <=
    Part000.totalTicks Part000.CONFIG * Part000.pitchRange Part000.CONFIG.
Proof.
  intro H.
  assert (G := Part000_reachable_on_grid s H).
  assert (U := Part000Facts.reachable_unique s H).
  split; [exact G|]. split; [exact U|].
  set (T := Part000.totalTicks Part000.CONFIG) in *.
  set (R := Part000.pitchRange Part000.CONFIG) in *.
  assert (L : (List.length (map cell (songData s)) <=
               List.length (list_prod (upto T) (upto R)))%nat).
  { apply NoDup_incl_length; [exact U|].
    intros [t p] Hin. apply in_map_iff in Hin. destruct Hin as (n & Hn & Hin).
    rewrite Forall_forall in G. apply G in Hin. destruct Hin as [Ht Hp].
    unfold cell in Hn. injection Hn as <- <-.
    apply in_prod_iff. split; apply in_upto; assumption. }
  rewrite length_map, length_prod, !length_upto in L.
  assert (T0 : 0 <= T) by (subst T; now cbv).
  assert (R0 : 0 <= R) by (subst R; now cbv).
  apply Nat2Z.inj_le in L. rewrite Nat2Z.inj_mul, !Z2Nat.id in L by assumption.
  exact L.
Qed.

Lemma store_stays_on_the_grid_witness :
  Part000.reachable Part000.two_notes /\
  Forall Part000.on_grid (songData Part000.two_notes).
Proof.
  assert (R : Part000.reachable Part000.two_notes).
  { unfold Part000.two_notes.
    repeat (eapply Part000.reach_step;
            [|first [apply Part000.step_toggle; cbn; lia
                    |apply Part000.step_select]]).
    apply Part000.reach_init. }
  split; [exact R|]. apply (store_stays_on_the_grid _ R).
Defined.

(** ** Grouping by tick is sorting by tick *)

Section Grouping.
Context {A : Type}.
Variable key : A -> Z.

Lemma flat_map_ext_In {B : Type} (f g : Z -> list B) (l : list Z) :
  (forall x, In x l -> f x = g x) -> flat_map f l = flat_map g l.
Proof.
  induction l as [|x l IH]; intro H; simpl; [reflexivity|].
  rewrite (H x) by now left. rewrite IH; [reflexivity|].
  intros y Hy. apply H. now right.
Qed.

Lemma map_flat_map {B C : Type} (g : B -> C) (f : Z -> list B) (l : list Z) :
  map g (flat_map f l) = flat_map (fun t => map g (f t)) l.
Proof.
  induction l as [|x l IH]; simpl; [reflexivity|].
  now rewrite map_app, IH.
Qed.

Lemma filter_all (f : A -> bool) (l : list A) :
  Forall (fun x => f x = true) l -> filter f l = l.
Proof.
  induction 1 as [|x l Hx _ IH]; simpl; [reflexivity|].
  now rewrite Hx, IH.
Qed.

Lemma filter_nothing (f : A -> bool) (l : list A) :
  Forall (fun x => f x = false) l -> filter f l = [].
Proof.
  induction 1 as [|x l Hx _ IH]; simpl; [reflexivity|].
  now rewrite Hx.
Qed.

(** A sorted list whose keys start at [a] splits into the elements of key
    [a] and the later ones. *)
Lemma sorted_split (a : Z) (l : list A) :
  StronglySorted (by_key key) l -> Forall (fun x => a <= key x) l ->
  exists l1 l2,
    l = l1 ++ l2 /\ Forall (fun x => key x = a) l1 /\
    Forall (fun x => a < key x) l2 /\ StronglySorted (by_key key) l2.
Proof.
  induction 1 as [|x l Hl IH Hx]; intro Ha.
  - exists [], []. repeat split; constructor.
  - inversion Ha as [|? ? Hax Hal]; subst.
    destruct (Z.eq_dec (key x) a) as [E|E].
    + destruct (IH Hal) as (l1 & l2 & -> & H1 & H2 & H3).
      exists (x :: l1), l2. repeat split; auto.
    + exists [], (x :: l). repeat split; [constructor| |now constructor].
      constructor; [lia|].
      eapply Forall_impl; [|exact Hx]. unfold by_key. intros; lia.
Qed.

Lemma group_sorted (k a : nat) (l : list A) :
  StronglySorted (by_key key) l ->
  Forall (fun x => Z.of_nat a <= key x < Z.of_nat (a + k)) l ->
  flat_map (fun t => filter (fun x => key x =? t) l) (map Z.of_nat (seq a k)) = l.
Proof.
  revert a l. induction k as [|k IH]; intros a l Hs Hr.
  - destruct l as [|x l]; [reflexivity|].
    inversion Hr; subst. lia.
  - cbn [seq map flat_map].
    destruct (sorted_split (Z.of_nat a) l Hs) as (l1 & l2 & -> & H1 & H2 & H3).
    { eapply Forall_impl; [|exact Hr]. simpl. intros; lia. }
    rewrite filter_app.
    rewrite (filter_all _ l1)
      by (eapply Forall_impl; [|exact H1]; intros x Hx; now apply Z.eqb_eq).
    rewrite (filter_nothing _ l2)
      by (eapply Forall_impl; [|exact H2]; intros x Hx; cbv beta in Hx;
          apply Z.eqb_neq; lia).
    rewrite app_nil_r. f_equal.
    transitivity (flat_map (fun t => filter (fun x => key x =? t) l2)
                           (map Z.of_nat (seq (S a) k)));
      [|apply (IH (S a) l2 H3)].
    + apply flat_map_ext_In. intros t Ht. rewrite filter_app.
      apply in_map_iff in Ht. destruct Ht as (i & <- & Hi). apply in_seq in Hi.
      rewrite (filter_nothing _ l1); [reflexivity|].
      eapply Forall_impl; [|exact H1]. intros x Hx. cbv beta in Hx.
      apply Z.eqb_neq. lia.
    + apply Forall_app in Hr. destruct Hr as [_ Hr].
      rewrite Forall_forall in *. intros x Hx.
      specialize (Hr x Hx). specialize (H2 x Hx). simpl in *. lia.
Qed.

(** Going through the keys [0 .. n-1] in order and taking, for each, the
    elements of that key as they come gives the stably sorted list. *)
Lemma group_by_key_is_sort (n : nat) (l : list A) :
  Forall (fun x => 0 <= key x < Z.of_nat n) l ->
  flat_map (fun t => filter (fun x => key x =? t) l) (map Z.of_nat (seq 0 n)) =
  sort key l.
Proof.
  intro H.
  rewrite (flat_map_ext_In _
             (fun t => filter (fun x => key x =? t) (sort key l))).
  - apply group_sorted; [apply sort_sorted|].
    eapply Permutation_Forall; [symmetry; apply sort_perm|].
    eapply Forall_impl; [|exact H]. simpl. intros; lia.
  - intros t _. symmetry. apply sort_stable.
Qed.

End Grouping.

(** ** part_000: what a playthrough plays *)

Section PreviewFacts.
Context {I : Type}.

Lemma previews_app (l1 l2 : list (Event I)) :
  previews (l1 ++ l2) = previews l1 ++ previews l2.
Proof. apply flat_map_app. Qed.

Lemma previews_of_notes (notes : list (Note I)) :
  previews (map (fun n => Preview (inst n) (pitch n)) notes) = map voice notes.
Proof.
  induction notes as [|n notes IH]; [reflexivity|].
  simpl. now rewrite <- IH.
Qed.

End PreviewFacts.

Lemma Part000_run_previews (s : Part000.State) (n : nat) :
  isPlaying s = false -> currentTick s = 0 -> timers s = [] ->
  (n <= Part000.total)%nat ->
  previews (log (Part000.run s n)) =
  previews (log s) ++
  flat_map (fun t => map voice (filter (at_tick t) (songData s)))
           (map Z.of_nat (seq 0 n)).
Proof.
  intros H1 H2 H3. induction n as [|n IH]; intro Hn.
  - unfold Part000.run. cbn [Nat.iter].
    rewrite (Part000Facts.play_when_stopped s H1). cbn [log seq map flat_map].
    now rewrite app_nil_r.
  - destruct (run_while_playing s H1 H2 H3 n) as (_ & E2 & _ & (ms & E4) & E5 & _);
      [lia|].
    rewrite run_S. unfold Part000.advance. rewrite E4.
    rewrite Part000Facts.callback_advancing
      by (rewrite E2, <- total_totalTicks; lia).
    cbn [log]. rewrite !previews_app, previews_of_notes, IH by lia.
    rewrite E2, E5, seq_S, map_app, flat_map_app.
    cbn [previews flat_map map app Nat.add]. rewrite !app_nil_r.
    now rewrite <- app_assoc.
Qed.

(** A playthrough previews every stored note exactly once, in ascending
    order of tick and, within a tick, in the order of the store: from a
    reachable state stopped at tick 0, [play()] and [totalTicks] firings add
    to the log the previews of the notes in the very order in which the
    export lists them in [data]. *)
Theorem playthrough_previews_in_export_order (s : Part000.State) (r : Q) :
  Part000.reachable s -> isPlaying s = false -> currentTick s = 0 ->
  previews (log (Part000.run s Part000.total)) =
    previews (log s) ++ map voice (sort tick (songData s)) /\
  map voice (sort tick (songData s)) =
    map (fun n : Z * Z * Z => (snd (fst n), snd n))
        (Api.data (Api.module (snd (Part000.generateFile r s)))) /\
  Permutation (map voice (sort tick (songData s))) (map voice (songData s)).
Proof.
  intros Hr H1 H2.
  assert (H3 : timers s = []).
  { apply Part000Facts.reachable_ok in Hr. destruct Hr as [_ Hr].
    now rewrite H1 in Hr. }
  split; [|split].
  - rewrite (Part000_run_previews s _ H1 H2 H3 (le_n _)). f_equal.
    rewrite <- map_flat_map. f_equal.
    apply (group_by_key_is_sort tick).
    eapply Forall_impl; [|exact (Part000_reachable_on_grid s Hr)].
    intros n [Hn _]. unfold Part000.total. rewrite Z2Nat.id by now cbv.
    exact Hn.
  - unfold Part000.generateFile. cbn [snd Api.module Api.data songData set_songData].
    rewrite map_map. reflexivity.
  - apply Permutation_map, sort_perm.
Qed.

Lemma playthrough_previews_in_export_order_witness :
  Part000.reachable (Part000.stop Part000.two_notes_reversed) /\
  previews (log (Part000.run (Part000.stop Part000.two_notes_reversed) Part000.total)) =
    [(1, 0); (0, 12); (0, 12); (1, 0)].
Proof.
  assert (R : Part000.reachable (Part000.stop Part000.two_notes_reversed)).
  { eapply Part000.reach_step; [|apply Part000.step_stop].
    unfold Part000.two_notes_reversed.
    repeat (eapply Part000.reach_step;
            [|first [apply Part000.step_toggle; cbn; lia
                    |apply Part000.step_select]]).
    apply Part000.reach_init. }
  split; [exact R|].
  destruct (playthrough_previews_in_export_order _ 0 R eq_refl eq_refl) as [E _].
  rewrite E. reflexivity.
Defined.

(** ** The exported module and the editor agree *)

(** [getNotesAt(t)] of the module exported from a store returns, note for
    note and in the same order, the notes the editor itself plays at tick
    [t]: one entry per stored note of that tick, with the pitch ratio of its
    pitch and the sound id of its instrument; for a tick without notes it
    returns the empty list. *)
Theorem exported_query_matches_the_store (r : Q) (s : Part000.State) (t : Z) :
  Api.getNotesAt (Api.module (snd (Part000.generateFile r s))) t =
    map (fun n => Api.mkEntry (index Api.sound_ids (inst n)) (pitchRatio (pitch n)))
        (filter (at_tick t) (songData s)) /\
  (filter (at_tick t) (songData s) = [] ->
   Api.getNotesAt (Api.module (snd (Part000.generateFile r s))) t = []).
Proof.
  assert (E : Api.getNotesAt (Api.module (snd (Part000.generateFile r s))) t =
    map (fun n => Api.mkEntry (index Api.sound_ids (inst n)) (pitchRatio (pitch n)))
        (filter (at_tick t) (songData s))).
  { rewrite getNotesAt_filter. unfold Part000.generateFile.
    cbn [snd Api.module Api.data Api.instruments songData set_songData].
    rewrite tuples_stable, map_map. apply map_ext. intro n.
    cbn [Api.tuple fst snd]. now rewrite pitchRatio_pow. }
  split; [exact E|]. intro H. now rewrite E, H.
Qed.

(** The sound id of an instrument index is "note." followed by the name the
    editor keeps for that index, for the five indices 0 .. 4; for any other
    index the exported [instruments] table has no entry. *)
Theorem sound_ids_follow_the_instruments (i : Z) :
  (0 <= i < 5 ->
   exists name, index Part000.INSTRUMENTS i = Some name /\
                index Api.sound_ids i = Some ("note." ++ name)%string) /\
  (i < 0 \/ 5 <= i ->
   index Api.sound_ids i = None /\ index Part000.INSTRUMENTS i = None).
Proof.
  split.
  - intro H.
    assert (C : i = 0 \/ i = 1 \/ i = 2 \/ i = 3 \/ i = 4) by lia.
    destruct C as [->|[->|[->|[->| ->]]]]; eexists; split; reflexivity.
  - intros [H|H].
    + unfold index. replace (i <? 0) with true by (symmetry; apply Z.ltb_lt; lia).
      auto.
    + unfold index. replace (i <? 0) with false by (symmetry; apply Z.ltb_ge; lia).
      split; apply nth_error_None; simpl; lia.
Qed.

Lemma sound_ids_follow_the_instruments_witness :
  0 <= 3 < 5 /\ index Api.sound_ids 3 = Some "note.banjo"%string.
Proof.
  split; [lia|].
  destruct (sound_ids_follow_the_instruments 3) as [H _].
  destruct (H ltac:(lia)) as (name & E1 & E2).
  rewrite E2. injection E1 as <-. reflexivity.
Defined.

(** ** part_000: pausing, resuming and seeking *)

(** In every reachable state [pause()] cancels the interval at once: nothing
    is scheduled afterwards, so a timer firing changes nothing; tick, notes
    and log are untouched; on a clock that is not running it changes nothing
    at all; and [play()] after it resumes from the same tick with one freshly
    numbered interval. *)
Theorem pause_cancels_and_play_resumes (s : Part000.State) :
  Part000.reachable s ->
  let s' := Part000.pause s in
  isPlaying s' = false /\ timers s' = [] /\ Part000.advance s' = s' /\
  currentTick s' = currentTick s /\ songData s' = songData s /\
  log s' = log s /\
  (isPlaying s = false -> s' = s) /\
  Part000.pause s' = s' /\
  currentTick (Part000.play s') = currentTick s /\
  isPlaying (Part000.play s') = true /\
  map fst (timers (Part000.play s')) = [nextTimer s] /\
  playbackInterval (Part000.play s') = Some (nextTimer s).
Proof.
  intro H. apply Part000Facts.reachable_ok in H. destruct H as [_ H].
  cbv zeta.
  assert (T : timers (Part000.pause s) = []).
  { unfold Part000.pause. destruct (isPlaying s).
    - destruct H as (h & ms & Hh & Ht). simpl. rewrite Hh. simpl.
      rewrite Ht. apply clear_single.
    - simpl. destruct (playbackInterval s); simpl; rewrite H; reflexivity. }
  assert (P : isPlaying (Part000.pause s) = false).
  { unfold Part000.pause. simpl. destruct (playbackInterval s); reflexivity. }
  assert (F : currentTick (Part000.pause s) = currentTick s /\
              songData (Part000.pause s) = songData s /\
              log (Part000.pause s) = log s /\
              nextTimer (Part000.pause s) = nextTimer s).
  { unfold Part000.pause. simpl. destruct (playbackInterval s); auto. }
  destruct F as (F1 & F2 & F3 & F4).
  split; [exact P|]. split; [exact T|].
  split; [unfold Part000.advance; now rewrite T|].
  split; [exact F1|]. split; [exact F2|]. split; [exact F3|].
  split; [|split].
  - intro E. rewrite E in H. unfold Part000.pause.
    destruct s as [sd ip ct pi si sp spi rc tm nt lg]. simpl in *. subst.
    destruct pi; reflexivity.
  - unfold Part000.pause at 1. cbn [isPlaying set_isPlaying playbackInterval].
    generalize T P. generalize (Part000.pause s).
    intros [sd ip ct pi si sp spi rc tm nt lg] T' P'. simpl in *. subst.
    destruct pi; reflexivity.
  - rewrite (Part000Facts.play_when_stopped _ P). simpl.
    rewrite T, F1, F4. auto.
Qed.

Lemma pause_cancels_and_play_resumes_witness :
  Part000.reachable (Part000.run (Part000.init (of_Z 1)) 7) /\
  timers (Part000.pause (Part000.run (Part000.init (of_Z 1)) 7)) = [] /\
  currentTick (Part000.play (Part000.pause (Part000.run (Part000.init (of_Z 1)) 7))) = 7.
Proof.
  assert (R : Part000.reachable (Part000.run (Part000.init (of_Z 1)) 7))
    by (apply Part000_reachable_run, Part000.reach_init).
  destruct (pause_cancels_and_play_resumes _ R)
    as (_ & T & _ & _ & _ & _ & _ & _ & C & _).
  split; [exact R|]. split; [exact T|]. rewrite C. reflexivity.
Defined.

Lemma seek_monotone (v w : Q) (total : Z) :
  0 <= total -> (v <= w)%Q ->
  Qfloor ((v / 100) * inject_Z total) <= Qfloor ((w / 100) * inject_Z total).
Proof.
  intros Ht H. apply Qfloor_resp_le.
  apply Qmult_le_compat_r.
  - unfold Qdiv. apply Qmult_le_compat_r; [exact H|discriminate].
  - change 0%Q with (inject_Z 0). now rewrite <- Zle_Qle.
Qed.

(** A seek keeps the clock as it was, running or not, and the notes as they
    are; it puts the tick on the song, further right for a slider further
    right, and refreshes the screen once, for the new tick.  On a running
    clock it leaves exactly one interval, a new one, whose period comes from
    the speed field as it reads at that moment. *)
Theorem seek_keeps_the_transport (s : Part000.State) (v : Q) :
  Part000.reachable s -> (0 <= v <= 100)%Q ->
  let s' := Part000.progress_oninput v s in
  isPlaying s' = isPlaying s /\ songData s' = songData s /\
  0 <= currentTick s' <= Part000.totalTicks Part000.CONFIG /\
  (forall w, (v <= w)%Q ->
     currentTick s' <= currentTick (Part000.progress_oninput w s)) /\
  ui_ticks (log s') = ui_ticks (log s) ++ [currentTick s'] /\
  (isPlaying s = true ->
   timers s' =
     [(nextTimer s,
       div (div (of_Z 1000) (of_Z (Part000.ticksPerSecond Part000.CONFIG)))
           (or_default (speedInput s) (of_Z 1)))] /\
   playbackInterval s' = Some (nextTimer s)).
Proof.
  intros H Hv. cbv zeta.
  assert (Hok := Part000Facts.reachable_ok s H).
  destruct (pause_cancels_and_play_resumes s H)
    as (P & T & _ & _ & F2 & F3 & _).
  assert (B := seek_in_range v (Part000.totalTicks Part000.CONFIG)
                 ltac:(now cbv) Hv).
  assert (F : speedInput (Part000.pause s) = speedInput s /\
              nextTimer (Part000.pause s) = nextTimer s).
  { unfold Part000.pause. simpl. destruct (playbackInterval s); auto. }
  destruct F as [F4 F5].
  assert (C : forall w, currentTick (Part000.progress_oninput w s) =
                        Qfloor ((w / 100) * inject_Z (Part000.totalTicks Part000.CONFIG))).
  { intro w. unfold Part000.progress_oninput. cbv zeta.
    destruct (isPlaying s); [|reflexivity].
    rewrite Part000Facts.play_when_stopped by exact P. reflexivity. }
  destruct (isPlaying s) eqn:E.
  - assert (D : Part000.progress_oninput v s =
                Part000.play (Part000.updateUI
                  (set_currentTick
                     (Qfloor ((v / 100) * inject_Z (Part000.totalTicks Part000.CONFIG)))
                     (Part000.pause s))))
      by (unfold Part000.progress_oninput; rewrite E; reflexivity).
    rewrite D. rewrite Part000Facts.play_when_stopped by exact P.
    cbn [isPlaying songData currentTick log timers playbackInterval
         Part000.updateUI emit set_currentTick speedInput nextTimer].
    rewrite F2, F3, F4, F5, T, ui_ticks_app. cbn [app].
    repeat split; try apply B; auto.
    intros w Hw. rewrite C. apply seek_monotone; [now cbv|exact Hw].
  - assert (D : Part000.progress_oninput v s =
                Part000.updateUI
                  (set_currentTick
                     (Qfloor ((v / 100) * inject_Z (Part000.totalTicks Part000.CONFIG)))
                     s))
      by (unfold Part000.progress_oninput; rewrite E; reflexivity).
    rewrite D.
    cbn [isPlaying songData currentTick log Part000.updateUI emit set_currentTick].
    rewrite E, ui_ticks_app.
    repeat split; try apply B; auto; try discriminate.
    intros w Hw. rewrite C. apply seek_monotone; [now cbv|exact Hw].
Qed.

Lemma seek_keeps_the_transport_witness :
  Part000.reachable (Part000.run (Part000.init (of_Z 2)) 7) /\
  (0 <= 50 <= 100)%Q /\
  currentTick (Part000.progress_oninput 50 (Part000.run (Part000.init (of_Z 2)) 7)) = 200 /\
  isPlaying (Part000.progress_oninput 50 (Part000.run (Part000.init (of_Z 2)) 7)) = true.
Proof.
  assert (R : Part000.reachable (Part000.run (Part000.init (of_Z 2)) 7))
    by (apply Part000_reachable_run, Part000.reach_init).
  assert (V : (0 <= 50 <= 100)%Q) by (split; discriminate).
  destruct (seek_keeps_the_transport _ 50 R V) as (P & _).
  split; [exact R|]. split; [exact V|]. split; [reflexivity|].
  rewrite P. reflexivity.
Defined.

(** ** script.js, first document: speed changes, repeat and the generated player *)

(** A change of the speed field keeps tick, notes and log; on a running
    clock it replaces the interval by a new one whose period is
    (1000 / 20) / speed for the new speed, and on a stopped clock it only
    stores the speed. *)
Theorem speed_change_restarts_the_interval (s : Script1.State) (x : num) :
  Script1.reachable s ->
  let s' := Script1.speedInput_onchange x s in
  Song.speed s' = x /\ currentTick s' = currentTick s /\
  songData s' = songData s /\ isPlaying s' = isPlaying s /\ log s' = log s /\
  (isPlaying s = true ->
   timers s' =
     [(nextTimer s,
       div (div (of_Z 1000) (of_Z Script1.TICKS_PER_SECOND)) x)] /\
   playbackInterval s' = Some (nextTimer s)) /\
  (isPlaying s = false -> timers s' = [] /\ s' = set_speed x s).
Proof.
  intro H. apply Script1Facts.s1_reachable_ok in H. destruct H as [_ H].
  cbv zeta. unfold Script1.speedInput_onchange. cbn [isPlaying set_speed].
  destruct (isPlaying s) eqn:E.
  - destruct H as (h & ms & Hh & Ht).
    assert (P : Script1.pause (set_speed x s) =
                set_timers [] (set_isPlaying false (set_speed x s))).
    { unfold Script1.pause.
      cbn [playbackInterval set_isPlaying set_speed]. rewrite Hh.
      unfold clearInterval. cbn [timers set_isPlaying set_speed].
      rewrite Ht, clear_single. reflexivity. }
    rewrite P. rewrite Script1Facts.s1_play_when_stopped by reflexivity.
    cbn. repeat split; try discriminate.
  - cbn. rewrite E, H. repeat split; try discriminate.
Qed.

Lemma speed_change_restarts_the_interval_witness :
  Script1.reachable (Script1.run (Script1.init (of_Z 1)) 3) /\
  timers (Script1.speedInput_onchange (of_Z 2) (Script1.run (Script1.init (of_Z 1)) 3)) =
    [(2%positive, of_Z 25)] /\
  currentTick (Script1.speedInput_onchange (of_Z 2) (Script1.run (Script1.init (of_Z 1)) 3)) = 3.
Proof.
  assert (R : Script1.reachable (Script1.run (Script1.init (of_Z 1)) 3))
    by (apply Script1_reachable_run, Script1.reach_init).
  assert (P : isPlaying (Script1.run (Script1.init (of_Z 1)) 3) = true)
    by (vm_compute; reflexivity).
  destruct (speed_change_restarts_the_interval _ (of_Z 2) R)
    as (_ & C & _ & _ & _ & T & _).
  split; [exact R|]. split; [|rewrite C; vm_compute; reflexivity].
  destruct (T P) as [E _]. rewrite E. vm_compute. reflexivity.
Defined.

(** With the repeat box checked a playthrough never ends: after [play()]
    from a stopped clock at tick 0, the clock is running after any number of
    firings, and after [n >= 1] of them the tick is ((n - 1) mod 200) + 1. *)
Theorem repeat_plays_forever (s : Script1.State) (n : nat) :
  isPlaying s = false -> currentTick s = 0 -> timers s = [] ->
  repeatCheckbox s = true ->
  isPlaying (Script1.run s n) = true /\
  List.length (timers (Script1.run s n)) = 1%nat /\
  currentTick (Script1.run s n) =
    if (n =? 0)%nat then 0 else (Z.of_nat n - 1) mod Script1.TOTAL_TICKS + 1.
Proof.
  intros H1 H2 H3 H4.
  assert (G : isPlaying (Script1.run s n) = true /\
              (exists h ms, timers (Script1.run s n) = [(h, ms)]) /\
              repeatCheckbox (Script1.run s n) = true /\
              currentTick (Script1.run s n) =
                if (n =? 0)%nat then 0
                else (Z.of_nat n - 1) mod Script1.TOTAL_TICKS + 1).
  { induction n as [|n IH].
    - change (Script1.run s 0) with (Script1.play s).
      rewrite (Script1Facts.s1_play_when_stopped s H1).
      cbn [isPlaying timers repeatCheckbox currentTick Nat.eqb].
      rewrite H2, H3, H4. cbn [app]. repeat split; eauto.
    - destruct IH as (P & (h & ms & T) & Rp & C).
      rewrite Script1_run_S. unfold Script1.advance. rewrite T.
      assert (B : 0 <= currentTick (Script1.run s n) <= Script1.TOTAL_TICKS).
      { rewrite C. destruct (n =? 0)%nat; unfold Script1.TOTAL_TICKS;
          [lia|]. Z.div_mod_to_equations. lia. }
      revert P T Rp C B. generalize (Script1.run s n). intros st P T Rp C B.
      destruct (Z_lt_le_dec (currentTick st) Script1.TOTAL_TICKS) as [L|L].
      + rewrite (Script1Facts.s1_callback_advancing st L),
          Script1Facts.s1_play_notes_and_step_eq.
        cbn [isPlaying timers repeatCheckbox currentTick].
        rewrite P, T, Rp, C. repeat split; eauto.
        change (S n =? 0)%nat with false. cbv iota.
        unfold Script1.TOTAL_TICKS in *. rewrite C in L.
        destruct (n =? 0)%nat eqn:E.
        * apply Nat.eqb_eq in E. subst. reflexivity.
        * apply Nat.eqb_neq in E. Z.div_mod_to_equations. lia.
      + rewrite (Script1Facts.s1_callback_at_end st L), Rp,
          Script1Facts.s1_play_notes_and_step_eq.
        cbn [isPlaying timers repeatCheckbox currentTick set_currentTick].
        rewrite P, T, Rp. repeat split; eauto.
        change (S n =? 0)%nat with false. cbv iota.
        unfold Script1.TOTAL_TICKS in *. rewrite C in L, B.
        destruct (n =? 0)%nat eqn:E; [lia|].
        apply Nat.eqb_neq in E. Z.div_mod_to_equations. lia. }
  destruct G as (P & (h & ms & T) & _ & C).
  split; [exact P|]. split; [now rewrite T|exact C].
Qed.

Lemma repeat_plays_forever_witness :
  isPlaying (Script1.run (set_repeatCheckbox true (Script1.init (of_Z 1))) 201) = true /\
  currentTick (Script1.run (set_repeatCheckbox true (Script1.init (of_Z 1))) 201) = 1.
Proof.
  destruct (repeat_plays_forever (set_repeatCheckbox true (Script1.init (of_Z 1))) 201
              eq_refl eq_refl eq_refl eq_refl) as (P & _ & C).
  split; [exact P|]. rewrite C. vm_compute. reflexivity.
Defined.

Lemma Script1_step_songData (s s' : Script1.State) :
  Script1.step s s' ->
  songData s' = songData s \/
  exists t p, 0 <= t < Script1.TOTAL_TICKS /\
              songData s' = toggled (selectedInst s) t p (songData s).
Proof.
  intro H. destruct H.
  - right. exists t, p. split; [assumption|].
    unfold Script1.toggleNote, toggled.
    destruct (findIndex (at_cell t p) (songData s) >? -1); reflexivity.
  - now left.
  - left. unfold Script1.speedInput_onchange, Script1.play, Script1.pause.
    cbn [isPlaying set_speed set_isPlaying playbackInterval].
    destruct (isPlaying s); [|reflexivity].
    destruct (playbackInterval s); reflexivity.
  - now left.
  - left. unfold Script1.play. destruct (isPlaying s); reflexivity.
  - left. unfold Script1.pause. simpl. destruct (playbackInterval s); reflexivity.
  - left. unfold Script1.stop, Script1.pause. simpl.
    destruct (playbackInterval s); reflexivity.
  - now left.
  - left. destruct (Z_lt_le_dec (currentTick s) Script1.TOTAL_TICKS) as [L|L].
    + now rewrite (Script1Facts.s1_callback_advancing s L),
        Script1Facts.s1_play_notes_and_step_eq.
    + rewrite (Script1Facts.s1_callback_at_end s L).
      destruct (repeatCheckbox s).
      * now rewrite Script1Facts.s1_play_notes_and_step_eq.
      * unfold Script1.stop, Script1.pause. simpl.
        destruct (playbackInterval s); reflexivity.
  - now left.
Qed.

Lemma Script1_reachable_ticks (s : Script1.State) :
  Script1.reachable s ->
  Forall (fun n => 0 <= tick n < Script1.TOTAL_TICKS) (songData s).
Proof.
  induction 1 as [field|s s' _ IH Hs]; [constructor|].
  destruct (Script1_step_songData s s' Hs) as [E|(t & p & Ht & E)]; rewrite E.
  - exact IH.
  - now apply toggled_Forall.
Qed.

Lemma playSong_S (script : Script1.Script) (n : nat) :
  Script1.playSong script (S n) =
  Script1.playSong_tick script (Script1.playSong script n).
Proof. reflexivity. Qed.

Lemma playSong_while_live (script : Script1.Script) (n : nat) :
  (n <= Script1.total)%nat ->
  Script1.playSong script n =
  Script1.mkPlayer (Z.of_nat n) true
    (flat_map (fun t => map (fun l => (Script1.line_sound l, Script1.line_pitch l))
                            (filter (fun l => Script1.line_tick l =? t)
                                    (Script1.lines script)))
              (map Z.of_nat (seq 0 n)))
    0.
Proof.
  induction n as [|n IH]; intro Hn; [reflexivity|].
  rewrite playSong_S, IH by lia.
  unfold Script1.playSong_tick, Script1.playSong_callback.
  cbn [Script1.player_live Script1.player_tick Script1.player_sounds
       Script1.player_messages].
  replace (Z.of_nat n >=? Script1.TOTAL_TICKS) with false.
  - rewrite seq_S, map_app, flat_map_app. cbn [map flat_map Nat.add].
    rewrite app_nil_r. f_equal. lia.
  - symmetry. rewrite Z.geb_leb. apply Z.leb_gt.
    rewrite <- Script1_total. lia.
Qed.

(** The script that [generateBedrockScript] writes for a reachable page
    plays, once started, every exported note exactly once, in ascending order
    of tick and in store order within a tick, during its first 200 game
    ticks; on the next tick it clears its run and sends its end message once,
    and nothing happens on later ticks. *)
Theorem generated_player_plays_every_note_once (s : Script1.State) (r : Q) :
  Script1.reachable s ->
  let script := snd (Script1.generateBedrockScript r s) in
  let sounds :=
    map (fun l => (Script1.line_sound l, Script1.line_pitch l))
        (sort Script1.line_tick (Script1.lines script)) in
  Script1.playSong script Script1.total =
    Script1.mkPlayer Script1.TOTAL_TICKS true sounds 0 /\
  Permutation sounds
    (map (fun l => (Script1.line_sound l, Script1.line_pitch l))
         (Script1.lines script)) /\
  (forall n, (Script1.total < n)%nat ->
     Script1.playSong script n =
     Script1.mkPlayer Script1.TOTAL_TICKS false sounds 1).
Proof.
  intro H. cbv zeta.
  set (script := snd (Script1.generateBedrockScript r s)).
  assert (G : Forall (fun l => 0 <= Script1.line_tick l < Z.of_nat Script1.total)
                     (Script1.lines script)).
  { subst script. unfold Script1.generateBedrockScript.
    cbn [snd Script1.lines]. apply Forall_map.
    eapply Forall_impl; [|exact (Script1_reachable_ticks s H)].
    intros n Hn. cbn [Script1.line_tick]. rewrite Script1_total. exact Hn. }
  assert (E : Script1.playSong script Script1.total =
              Script1.mkPlayer Script1.TOTAL_TICKS true
                (map (fun l => (Script1.line_sound l, Script1.line_pitch l))
                     (sort Script1.line_tick (Script1.lines script))) 0).
  { rewrite (playSong_while_live script _ (le_n _)), Script1_total. f_equal.
    rewrite <- map_flat_map. f_equal.
    apply (group_by_key_is_sort Script1.line_tick). exact G. }
  split; [exact E|]. split; [apply Permutation_map, sort_perm|].
  intros n Hn. induction Hn as [|n Hn IH].
  - rewrite playSong_S, E. reflexivity.
  - rewrite playSong_S, IH. reflexivity.
Qed.

Lemma generated_player_plays_every_note_once_witness :
  Script1.reachable (Script1.toggleNote 0 12 (Script1.toggleNote 5 0 (Script1.init (of_Z 1)))) /\
  map fst (Script1.player_sounds
    (Script1.playSong
       (snd (Script1.generateBedrockScript 0
          (Script1.toggleNote 0 12 (Script1.toggleNote 5 0 (Script1.init (of_Z 1))))))
       Script1.total)) = [Some "note.harp"%string; Some "note.harp"%string].
Proof.
  assert (R : Script1.reachable
                (Script1.toggleNote 0 12 (Script1.toggleNote 5 0 (Script1.init (of_Z 1))))).
  { repeat (eapply Script1.reach_step;
            [|apply Script1.step_toggle; unfold Script1.TOTAL_TICKS,
                Script1.NOTES_COUNT; lia]).
    apply Script1.reach_init. }
  split; [exact R|].
  destruct (generated_player_plays_every_note_once _ 0 R) as (E & _).
  rewrite E. reflexivity.
Defined.

(** ** Exporting twice *)

(** A second export right after a first changes nothing more: the store is
    already in tick order, and the second file carries the same [data], the
    same text for it and the same speed; only the drawn identifier, and with
    it the file name, can differ. *)
Theorem export_twice_is_export_once (r1 r2 : Q) (s : Part000.State) :
  let s1 := fst (Part000.generateFile r1 s) in
  let f1 := snd (Part000.generateFile r1 s) in
  let s2 := fst (Part000.generateFile r2 s1) in
  let f2 := snd (Part000.generateFile r2 s1) in
  s2 = s1 /\
  Api.data (Api.module f2) = Api.data (Api.module f1) /\
  Api.dataStr f2 = Api.dataStr f1 /\
  Api.speed (Api.module f2) = Api.speed (Api.module f1) /\
  Api.instruments (Api.module f2) = Api.instruments (Api.module f1).
Proof.
  cbv zeta. unfold Part000.generateFile.
  cbn [fst snd Api.module Api.data Api.dataStr Api.speed Api.instruments
       songData speedInput set_songData].
  rewrite (sort_sorted_id tick _ (sort_sorted tick (songData s))).
  repeat split.
Qed.

(** ** script.js, second document: the interval that cannot be cleared *)

Lemma leaked_fields (s s' : Script2.State) :
  timers s' = timers s -> playbackInterval s' = playbackInterval s ->
  nextTimer s' = nextTimer s -> Script2.leaked s -> Script2.leaked s'.
Proof. unfold Script2.leaked. intros -> -> ->. auto. Qed.

Lemma leaked_pause (s : Script2.State) : Script2.leaked s -> Script2.leaked (Script2.pause s).
Proof.
  intro H. assert (H' := H). destruct H' as (H1 & H2 & H3).
  unfold Script2.pause. cbn [playbackInterval set_isPlaying].
  destruct (playbackInterval s) as [h|] eqn:E;
    [|eapply leaked_fields; [| | |exact H]; reflexivity].
  split; [|split].
  - cbn [timers clearInterval set_timers set_isPlaying]. unfold clear.
    apply in_map_iff in H1. destruct H1 as ([h1 ms] & Hf & Hin).
    simpl in Hf. subst h1. apply in_map_iff. exists (1%positive, ms).
    split; [reflexivity|]. apply filter_In. split; [exact Hin|].
    simpl. apply negb_true_iff, Pos.eqb_neq. intro. apply (H2 h eq_refl).
    congruence.
  - cbn. rewrite E. exact H2.
  - exact H3.
Qed.

Lemma leaked_stop (s : Script2.State) : Script2.leaked s -> Script2.leaked (Script2.stop s).
Proof.
  intro H. apply leaked_pause in H. unfold Script2.stop.
  eapply leaked_fields; [| | |exact H]; reflexivity.
Qed.

Lemma leaked_play (s : Script2.State) : Script2.leaked s -> Script2.leaked (Script2.play s).
Proof.
  intros (H1 & H2 & H3). unfold Script2.play. split; [|split].
  - cbn. rewrite map_app. apply in_or_app. now left.
  - cbn. intros h E. injection E as <-. intro E. rewrite E in H3.
    now apply Pos.lt_irrefl in H3.
  - cbn. apply Pos.lt_lt_succ. exact H3.
Qed.

Lemma leaked_callback (s : Script2.State) :
  Script2.leaked s -> Script2.leaked (Script2.interval_callback s).
Proof.
  intro H. unfold Script2.interval_callback.
  destruct (currentTick s >=? Part000.totalTicks Script2.CONFIG);
    [now apply leaked_stop|].
  cbv zeta. unfold Script2.playPreviewSound, Script2.State.
  rewrite fold_previews. eapply leaked_fields; [| | |exact H]; reflexivity.
Qed.

(** Once [play()] has been called twice in a row on the freshly loaded page
    of the second document, the first interval stays live whatever happens
    next: no sequence of toggles, plays, pauses, stops, seeks, firings and
    exports clears handle 1, so the timer keeps firing the callback. *)
Theorem leaked_interval_is_never_cleared (field : num) (s : Script2.State) :
  Script2.steps (Script2.play (Script2.play (Script2.init field))) s ->
  In 1%positive (map fst (timers s)) /\
  Script2.advance s = Script2.interval_callback s /\
  Script2.advance (Script2.pause s) = Script2.interval_callback (Script2.pause s) /\
  Script2.advance (Script2.stop s) = Script2.interval_callback (Script2.stop s).
Proof.
  intro H.
  assert (L : Script2.leaked s).
  { remember (Script2.play (Script2.play (Script2.init field))) as s0 eqn:E0.
    induction H as [s0|s0 s' s'' _ IH Hs].
    - subst s0. split; [|split]; cbn; [now left| |reflexivity].
      intros h E. injection E as <-. discriminate.
    - specialize (IH E0). destruct Hs.
      + eapply leaked_fields; [| | |exact IH];
          unfold Script2.toggleNote;
          destruct (findIndex (at_cell t p) (songData s) >? -1); reflexivity.
      + exact IH.
      + exact IH.
      + now apply leaked_play.
      + now apply leaked_pause.
      + now apply leaked_stop.
      + exact IH.
      + now apply leaked_callback.
      + exact IH. }
  assert (A : forall st, Script2.leaked st -> Script2.advance st = Script2.interval_callback st).
  { intros st (Hin & _). unfold Script2.advance.
    destruct (timers st); [contradiction|reflexivity]. }
  split; [apply L|]. split; [now apply A|].
  split; apply A; [now apply leaked_pause|now apply leaked_stop].
Qed.

Lemma leaked_interval_is_never_cleared_witness :
  Script2.steps (Script2.play (Script2.play (Script2.init (of_Z 1))))
    (Script2.stop (Script2.pause (Script2.play (Script2.play (Script2.init (of_Z 1)))))) /\
  In 1%positive
     (map fst (timers (Script2.stop (Script2.pause
        (Script2.play (Script2.play (Script2.init (of_Z 1)))))))).
Proof.
  assert (S : Script2.steps (Script2.play (Script2.play (Script2.init (of_Z 1))))
                (Script2.stop (Script2.pause
                   (Script2.play (Script2.play (Script2.init (of_Z 1))))))).
  { eapply Script2.steps_step; [|apply Script2.step_stop].
    eapply Script2.steps_step; [|apply Script2.step_pause].
    apply Script2.steps_refl. }
  split; [exact S|].
  apply (leaked_interval_is_never_cleared _ _ S).
Defined.

(** ** script.js, third document: the handle *)

Module Script3Facts.
Import Script3.

Implicit Types s : State.

Lemma s3_pause_ok s : transport_ok s -> transport_ok (pause s) /\ isPlaying (pause s) = false.
Proof.
  intros [H B]. unfold pause, handle_ok in *.
  destruct (isPlaying s) eqn:E; cbn [negb].
  - destruct H as (h & ms & Hh & Ht).
    cbn [playbackInterval set_isPlaying]. rewrite Hh.
    split; [split|reflexivity]; [|exact B].
    unfold handle_ok.
    cbn [isPlaying playbackInterval timers set_playbackInterval clearInterval
         set_timers set_isPlaying].
    rewrite Ht, clear_single. auto.
  - split; [split; [unfold handle_ok; now rewrite E|exact B]|exact E].
Qed.

Lemma s3_play_ok s : transport_ok s -> transport_ok (play s) /\ isPlaying (play s) = true.
Proof.
  intros [H B]. unfold play, handle_ok in *.
  destruct (isPlaying s) eqn:E.
  - split; [split; [unfold handle_ok; now rewrite E|exact B]|exact E].
  - destruct H as [_ Ht]. split; [split|reflexivity]; [|exact B].
    unfold handle_ok. cbn. rewrite Ht. cbn. eexists _, _. split; reflexivity.
Qed.

Lemma s3_stop_ok s : transport_ok s -> transport_ok (stop s).
Proof.
  intro H. destruct (s3_pause_ok s H) as [[Hp _] _].
  split; [exact Hp|]. cbn. split; [lia|now cbv].
Qed.

Lemma s3_callback_ok s : transport_ok s -> transport_ok (interval_callback s).
Proof.
  intro H. unfold interval_callback.
  destruct (currentTick s >=? Part000.totalTicks CONFIG) eqn:E;
    [now apply s3_stop_ok|].
  cbv zeta. unfold playPreviewSound, State. rewrite fold_previews.
  destruct H as [H B]. split; [exact H|]. cbn [currentTick updatePlayHead emit set_currentTick].
  rewrite Z.geb_leb in E. apply Z.leb_gt in E. lia.
Qed.

Lemma s3_seek_ok v s :
  (0 <= v <= 100)%Q -> transport_ok s -> transport_ok (progressBar_oninput v s).
Proof.
  intros Hv H. unfold progressBar_oninput. cbv zeta.
  assert (P : 0 <= Part000.totalTicks CONFIG) by now cbv.
  assert (R := seek_in_range v (Part000.totalTicks CONFIG) P Hv).
  destruct (isPlaying s) eqn:E.
  - apply s3_play_ok. destruct (s3_pause_ok s H) as [[Hp _] _].
    split; [exact Hp|exact R].
  - destruct H as [H _]. split; [exact H|exact R].
Qed.

Lemma s3_step_ok s s' : step s s' -> transport_ok s -> transport_ok s'.
Proof.
  intros Hs Hok. destruct Hs.
  - unfold Script2.toggleNote.
    destruct (findIndex (at_cell t p) (songData s) >? -1); exact Hok.
  - exact Hok.
  - exact Hok.
  - now apply s3_play_ok.
  - now apply s3_pause_ok.
  - now apply s3_stop_ok.
  - now apply s3_seek_ok.
  - now apply s3_callback_ok.
  - exact Hok.
Qed.

Lemma s3_reachable_ok s : reachable s -> transport_ok s.
Proof.
  induction 1 as [field|s s' _ IH Hs].
  - split; [split; reflexivity|]. cbn. split; [lia|now cbv].
  - exact (s3_step_ok s s' Hs IH).
Qed.

End Script3Facts.

(** In the third document of script.js the interval handle is held exactly
    while the clock runs: in every reachable state either the clock is
    playing, [playbackInterval] names the one live interval, or it is not
    playing, [playbackInterval] is null and nothing is scheduled; the tick
    stays on the song; [pause()] leaves no interval and a null handle, and on
    a clock that is not running it returns at once. *)
Theorem handle_is_held_exactly_while_playing (s : Script3.State) :
  Script3.reachable s ->
  Script3.handle_ok s /\
  (isPlaying s = true <-> playbackInterval s <> None) /\
  (isPlaying s = true <-> timers s <> []) /\
  (List.length (timers s) <= 1)%nat /\
  0 <= currentTick s <= Part000.totalTicks Script3.CONFIG /\
  timers (Script3.pause s) = [] /\ playbackInterval (Script3.pause s) = None /\
  (isPlaying s = false -> Script3.pause s = s).
Proof.
  intro H. apply Script3Facts.s3_reachable_ok in H.
  destruct (Script3Facts.s3_pause_ok s H) as [[Hp _] Ep].
  destruct H as [H B]. split; [exact H|].
  unfold Script3.handle_ok in *. rewrite Ep in Hp. destruct Hp as [Hp1 Hp2].
  assert (Pz : isPlaying s = false -> Script3.pause s = s)
    by (intro F; unfold Script3.pause; now rewrite F).
  destruct (isPlaying s) eqn:E.
  - destruct H as (h & ms & Hh & Ht). rewrite Hh, Ht.
    repeat split; intros; try congruence; try apply B; try assumption.
    simpl. lia.
  - destruct H as [Hh Ht]. rewrite Hh, Ht.
    repeat split; intros; try congruence; try apply B; try assumption.
    + simpl. lia.
    + now apply Pz.
Qed.

Lemma handle_is_held_exactly_while_playing_witness :
  Script3.reachable (Script3.play (Script3.init (of_Z 1))) /\
  timers (Script3.pause (Script3.play (Script3.init (of_Z 1)))) = [] /\
  playbackInterval (Script3.pause (Script3.play (Script3.init (of_Z 1)))) = None.
Proof.
  assert (R : Script3.reachable (Script3.play (Script3.init (of_Z 1)))).
  { eapply Script3.reach_step; [|apply Script3.step_play].
    apply Script3.reach_init. }
  split; [exact R|].
  destruct (handle_is_held_exactly_while_playing _ R)
    as (_ & _ & _ & _ & _ & T & P & _).
  split; [exact T|exact P].
Defined.

(** ** part_000: stopping, and toggling while the clock runs *)

(** In every reachable state [stop()] leaves the clock stopped at tick 0
    with nothing scheduled, the notes as they were and one screen refresh, for
    tick 0, added to the log; a timer firing afterwards changes nothing, and
    [play()] after it starts from tick 0. *)
Theorem stop_rewinds (s : Part000.State) :
  Part000.reachable s ->
  let s' := Part000.stop s in
  isPlaying s' = false /\ currentTick s' = 0 /\ timers s' = [] /\
  songData s' = songData s /\ log s' = log s ++ [UIUpdate 0] /\
  Part000.advance s' = s' /\
  currentTick (Part000.play s') = 0 /\ isPlaying (Part000.play s') = true.
Proof.
  intro H. apply Part000Facts.reachable_ok in H. cbv zeta.
  destruct (Part000Facts.stop_stops s H) as (H1 & H2 & H3 & H4 & H5).
  repeat split; try assumption.
  - unfold Part000.advance. now rewrite H3.
  - rewrite (Part000Facts.play_when_stopped _ H1). exact H2.
  - now rewrite (Part000Facts.play_when_stopped _ H1).
Qed.

Lemma stop_rewinds_witness :
  Part000.reachable (Part000.run (Part000.init (of_Z 1)) 9) /\
  currentTick (Part000.stop (Part000.run (Part000.init (of_Z 1)) 9)) = 0 /\
  timers (Part000.stop (Part000.run (Part000.init (of_Z 1)) 9)) = [].
Proof.
  assert (R : Part000.reachable (Part000.run (Part000.init (of_Z 1)) 9))
    by (apply Part000_reachable_run, Part000.reach_init).
  destruct (stop_rewinds _ R) as (_ & C & T & _).
  split; [exact R|]. split; [exact C|exact T].
Defined.

(** A click on a cell never touches the clock: playing state, tick, interval
    and handle stay as they are, also while the song plays.  A click on a
    free cell adds one note and emits exactly one preview, of the selected
    instrument at the pitch of the cell; a click on an occupied cell removes
    one note and emits nothing. *)
Theorem toggle_leaves_the_clock (s : Part000.State) (t p : Z) :
  let s' := Part000.toggleNote t p s in
  isPlaying s' = isPlaying s /\ currentTick s' = currentTick s /\
  timers s' = timers s /\ playbackInterval s' = playbackInterval s /\
  (occupied t p (songData s) = false ->
   log s' = log s ++ [Preview (selectedInst s) p] /\
   List.length (songData s') = S (List.length (songData s))) /\
  (occupied t p (songData s) = true ->
   log s' = log s /\
   S (List.length (songData s')) = List.length (songData s)).
Proof.
  cbv zeta.
  assert (F : isPlaying (Part000.toggleNote t p s) = isPlaying s /\
              currentTick (Part000.toggleNote t p s) = currentTick s /\
              timers (Part000.toggleNote t p s) = timers s /\
              playbackInterval (Part000.toggleNote t p s) = playbackInterval s).
  { unfold Part000.toggleNote.
    destruct (findIndex (at_cell t p) (songData s) >? -1); auto. }
  destruct F as (F1 & F2 & F3 & F4).
  repeat split; try assumption.
  - unfold Part000.toggleNote. now rewrite (findIndex_absent _ _ H).
  - rewrite Part000_toggleNote_songData, (toggled_absent _ _ _ _ H).
    rewrite length_app. simpl. lia.
  - unfold Part000.toggleNote.
    destruct (findIndex_present _ _ H) as (l1 & n & l2 & _ & -> & _).
    replace (Z.of_nat (List.length l1) >? -1) with true
      by (symmetry; apply Z.gtb_lt; lia).
    reflexivity.
  - rewrite Part000_toggleNote_songData.
    destruct (toggled_present (selectedInst s) _ _ _ H)
      as (l1 & n & l2 & -> & _ & _ & ->).
    rewrite !length_app. simpl. lia.
Qed.
